(** * LoRA references in prompts: [scripts/mergers/prompt_utils.py]

    A shallow embedding of the prompt utilities of the SuperMerger
    extension: the [<lora:name:weight[:lbw]>] parser, the output-name
    index built from the host registry or from the files of the LoRA
    directory, and [extract_loras_from_prompt], which matches the parsed
    references against the selectable names. *)

From Stdlib Require Import String Ascii.
From stdpp Require Import gmap list.

Set Warnings "-register-all".

Local Open Scope N_scope.

(** ** Python strings

    A Python [str] is a sequence of Unicode code points. *)

Abbreviation pystr := (list N).

Definition py (s : string) : pystr :=
  (λ a, N_of_ascii a) <$> list_ascii_of_string s.
Arguments py _%_string.

(** [bool(s)] of a string: non-empty. *)
Definition str_truthy (s : pystr) : bool :=
  match s with [] => false | _ :: _ => true end.

(** [sep.join(parts)]. *)
Fixpoint join (sep : pystr) (parts : list pystr) : pystr :=
  match parts with
  | [] => []
  | [p] => p
  | p :: ps => p ++ sep ++ join sep ps
  end.

(** [x in xs] for a list of strings: [==] on each element. *)
Definition str_in (x : pystr) (xs : list pystr) : bool := bool_decide (x ∈ xs).

Fixpoint take_while {A} (p : A → bool) (l : list A) : list A :=
  match l with
  | x :: l' => if p x then x :: take_while p l' else []
  | [] => []
  end.

Fixpoint drop_while {A} (p : A → bool) (l : list A) : list A :=
  match l with
  | x :: l' => if p x then drop_while p l' else l
  | [] => []
  end.

(** The code points [str.strip()] removes: those for which
    [str.isspace] holds (category Zs, or bidirectional class WS, B
    or S). *)
Definition is_space (c : N) : bool :=
  ((9 <=? c) && (c <=? 13)) || ((28 <=? c) && (c <=? 32))
  || (c =? 0x85) || (c =? 0xA0) || (c =? 0x1680)
  || ((0x2000 <=? c) && (c <=? 0x200A))
  || (c =? 0x2028) || (c =? 0x2029) || (c =? 0x202F)
  || (c =? 0x205F) || (c =? 0x3000).

Definition lstrip (s : pystr) : pystr := drop_while is_space s.
Definition rstrip (s : pystr) : pystr := reverse (drop_while is_space (reverse s)).
Definition strip (s : pystr) : pystr := rstrip (lstrip s).

(** ** The builtins the module relies on

    [float(s)] ([None] stands for [ValueError]), the rendering of a
    float inside an f-string, the literal [1.0], and [str.lower]. They
    belong to the interpreter, not to this module, and are kept
    abstract. *)
Class PyBuiltins := {
  pyfloat : Type;
  float_of_str : pystr → option pyfloat;
  float_one : pyfloat;
  format_float : pyfloat → pystr;
  str_lower : pystr → pystr;
}.

(** ** Regular expressions, as [re] runs them

    The fragment of the pattern language the module uses, with the
    backtracking semantics of [re]: alternatives are tried in priority
    order and the first overall success is the match. *)
Module Re.

Inductive regex :=
| Lit (t : pystr)                 (* literal text *)
| NoneOf1 (cs : list N)           (* [^cs]+ , greedy *)
| Cat (r1 r2 : regex)
| Opt (r : regex)                 (* (?:r)? , greedy *)
| Group (i : nat) (r : regex).    (* capturing group number i *)

(** A match object: the text of the groups that took part. *)
Abbreviation groups := (gmap nat pystr).

Fixpoint strip_prefix (t s : pystr) : option pystr :=
  match t, s with
  | [], _ => Some s
  | a :: t', b :: s' => if a =? b then strip_prefix t' s' else None
  | _ :: _, [] => None
  end.

Definition none_of (cs : list N) (c : N) : bool := negb (bool_decide (c ∈ cs)).

(** Greedy repetition of a character class: the longest run first,
    shorter ones when the continuation fails. *)
Fixpoint many {R} (p : N → bool) (s : pystr) (k : pystr → option R) : option R :=
  match s with
  | c :: s' =>
      if p c then
        match many p s' k with
        | Some x => Some x
        | None => k s
        end
      else k s
  | [] => k []
  end.

Definition many1 {R} (p : N → bool) (s : pystr) (k : pystr → option R) : option R :=
  match s with
  | c :: s' => if p c then many p s' k else None
  | [] => None
  end.

(** The text consumed between input [s] and its suffix [s']. *)
Definition consumed (s s' : pystr) : pystr := take (length s - length s') s.

Fixpoint exec {R} (r : regex) (s : pystr) (g : groups)
    (k : pystr → groups → option R) : option R :=
  match r with
  | Lit t =>
      match strip_prefix t s with
      | Some s' => k s' g
      | None => None
      end
  | NoneOf1 cs => many1 (none_of cs) s (λ s', k s' g)
  | Cat r1 r2 => exec r1 s g (λ s' g', exec r2 s' g' k)
  | Opt r1 =>
      match exec r1 s g k with
      | Some x => Some x
      | None => k s g
      end
  | Group i r1 => exec r1 s g (λ s' g', k s' (<[i := consumed s s']> g'))
  end.

(** [pattern.match] anchored at the start of [s]: the groups and the
    text left after the match. *)
Definition match_at (r : regex) (s : pystr) : option (groups * pystr) :=
  exec r s ∅ (λ s' g, Some (g, s')).

(** [re.finditer]: scan left to right; after a match the scan resumes
    where the match ended. [skip] counts the code points of the last
    match that are still to be stepped over. *)
Fixpoint finditer_from (r : regex) (s : pystr) (skip : nat) : list groups :=
  match skip with
  | S n =>
      match s with
      | [] => []
      | _ :: s' => finditer_from r s' n
      end
  | O =>
      match match_at r s with
      | Some (g, s') =>
          g :: match s with
               | [] => []
               | _ :: t => finditer_from r t (length s - length s' - 1)
               end
      | None =>
          match s with
          | [] => []
          | _ :: t => finditer_from r t 0
          end
      end
  end.

Definition finditer (r : regex) (s : pystr) : list groups := finditer_from r s 0.

End Re.

(** ** [parse_lora_syntax] *)

Definition colon : N := 58.
Definition gt : N := 62.

(** [r'<lora:([^:>]+):([^:>]+)(?::([^>]+))?>'] *)
Definition pattern : Re.regex :=
  Re.Cat (Re.Lit (py "<lora:"))
 (Re.Cat (Re.Group 1 (Re.NoneOf1 [colon; gt]))
 (Re.Cat (Re.Lit [colon])
 (Re.Cat (Re.Group 2 (Re.NoneOf1 [colon; gt]))
 (Re.Cat (Re.Opt (Re.Cat (Re.Lit [colon]) (Re.Group 3 (Re.NoneOf1 [gt]))))
         (Re.Lit [gt]))))).

(** [match.group(i)] of a group that took part in the match. *)
Definition group (m : Re.groups) (i : nat) : pystr := default [] (m !! i).

Section Parser.
Context `{PyBuiltins}.

(** A parsed reference: [(name, weight, lbw)]. *)
Definition lora_ref : Type := pystr * pyfloat * option pystr.

Definition ref_of_match (m : Re.groups) : lora_ref :=
  let name := strip (group m 1) in
  let weight :=
    match float_of_str (group m 2) with
    | Some w => w
    | None => float_one
    end in
  let lbw :=
    match m !! 3%nat with
    | Some t => if str_truthy t then Some (strip t) else None
    | None => None
    end in
  (name, weight, lbw).

Definition parse_lora_syntax (prompt : pystr) : list lora_ref :=
  ref_of_match <$> Re.finditer pattern prompt.

End Parser.

(** ** Python values, exceptions

    The values a JSON header or a metadata attribute can hold (numbers
    are restricted to integers). *)
Inductive pyval :=
| PNone
| PBool (b : bool)
| PInt (z : Z)
| PStr (s : pystr)
| PList (xs : list pyval)
| PDict (kvs : list (pystr * pyval)).

Inductive exn := AttributeError | TypeError.

Inductive result (A : Type) :=
| Ok (a : A)
| Raise (e : exn).
Arguments Ok {A} a.
Arguments Raise {A} e.

Global Instance result_bind : MBind result := λ A B f m,
  match m with
  | Ok a => f a
  | Raise e => Raise e
  end.

(** [bool(v)]. *)
Definition truthy (v : pyval) : bool :=
  match v with
  | PNone => false
  | PBool b => b
  | PInt z => negb (z =? 0)%Z
  | PStr s => str_truthy s
  | PList xs => match xs with [] => false | _ => true end
  | PDict kvs => match kvs with [] => false | _ => true end
  end.

Fixpoint assoc (k : pystr) (kvs : list (pystr * pyval)) : option pyval :=
  match kvs with
  | [] => None
  | (k', v) :: rest => if bool_decide (k' = k) then Some v else assoc k rest
  end.

(** [v.get(k, d)]: only a dict has the method. *)
Definition py_get (v : pyval) (k : pystr) (d : pyval) : result pyval :=
  match v with
  | PDict kvs => Ok (default d (assoc k kvs))
  | _ => Raise AttributeError
  end.

(** [v == s] for a string [s]. *)
Definition py_eq_str (v : pyval) (s : pystr) : bool :=
  match v with
  | PStr t => bool_decide (t = s)
  | _ => false
  end.

(** [v.lower()]: only a string has the method. *)
Definition py_lower `{PyBuiltins} (v : pyval) : result pystr :=
  match v with
  | PStr s => Ok (str_lower s)
  | _ => Raise AttributeError
  end.

(** Dictionary keys: hashable values up to [==] ([True == 1]). *)
Inductive pykey :=
| KNone
| KInt (z : Z)
| KStr (s : pystr).

Global Instance pykey_eq_dec : EqDecision pykey.
Proof. solve_decision. Defined.

Global Instance pykey_countable : Countable pykey.
Proof.
  refine (inj_countable'
    (λ k, match k with
          | KNone => inl ()
          | KInt z => inr (inl z)
          | KStr s => inr (inr s)
          end)
    (λ x, match x with
          | inl () => KNone
          | inr (inl z) => KInt z
          | inr (inr s) => KStr s
          end) _).
  by intros [].
Defined.

Definition py_hash (v : pyval) : result pykey :=
  match v with
  | PNone => Ok KNone
  | PBool b => Ok (KInt (if b then 1 else 0))
  | PInt z => Ok (KInt z)
  | PStr s => Ok (KStr s)
  | PList _ | PDict _ => Raise TypeError
  end.

(** The output-name index: [Dict[str, str]] by annotation; the keys are
    whatever hashable value the metadata held. *)
Abbreviation index := (gmap pykey pystr).

(** [d[k] = v]. *)
Definition setitem (d : index) (k : pyval) (v : pystr) : result index :=
  h ← py_hash k; Ok (<[h := v]> d).

(** ** The host: registry, configuration, files *)

Abbreviation path := (list pystr).

(** An entry of [lora.available_loras]; [None] when the object has no
    [metadata] attribute. *)
Record lora_obj := { metadata : option pyval }.

(** [shared]: [cmd_opts.lora_dir] ([None] when absent) and [data_path]. *)
Record shared_t := { cmd_lora_dir : option pystr; data_path : pystr }.

(** A [.safetensors] file: its stem, and the JSON value of its header
    ([None] when opening, reading or decoding fails). *)
Record st_file := { stem : pystr; header : option pyval }.

Record host := {
  (* [import lora]: [None] stands for [ImportError], [Some entries] for a
     module whose [available_loras] is a dict with these items *)
  available_loras : option (list (pystr * lora_obj));
  (* [HAS_WEBUI and shared] *)
  shared : option shared_t;
  (* [None]: the path does not exist; else [glob("**/*.safetensors")] *)
  glob_safetensors : path → option (list st_file);
}.

Definition get_lora_directory (h : host) : option path :=
  match shared h with
  | Some sh =>
      match cmd_lora_dir sh with
      | Some d => if str_truthy d then Some [d]
                  else Some [data_path sh; py "models"; py "Lora"]
      | None => Some [data_path sh; py "models"; py "Lora"]
      end
  | None => None
  end.

Definition load_lora_metadata (f : st_file) : pyval :=
  match header f with
  | Some hd =>
      match py_get hd (py "__metadata__") (PDict []) with
      | Ok md => md
      | Raise _ => PNone
      end
  | None => PNone
  end.

Section Lookup.
Context `{PyBuiltins}.

(** The body of the inner [try] of the registry loop. *)
Definition registry_entry (lookup : index) (name : pystr) (obj : lora_obj)
    : result index :=
  match metadata obj with
  | Some md =>
      if truthy md then
        ss_output ← py_get md (py "ss_output_name") (PStr []);
        if truthy ss_output && negb (py_eq_str ss_output name) then
          low ← py_lower ss_output;
          if negb (bool_decide (low = py "merged"))
          then setitem lookup ss_output name
          else Ok lookup
        else Ok lookup
      else Ok lookup
  | None => Ok lookup
  end.

(** [try: ... except: pass] around a body that updates [lookup]. *)
Definition try_pass (lookup : index) (body : result index) : index :=
  match body with
  | Ok lookup' => lookup'
  | Raise _ => lookup
  end.

Definition registry_loop (entries : list (pystr * lora_obj)) (lookup : index)
    : index :=
  foldl (λ lookup e, try_pass lookup (registry_entry lookup e.1 e.2))
        lookup entries.

(** The body of the loop over the files. *)
Definition scan_file (lookup : index) (f : st_file) : result index :=
  let md := load_lora_metadata f in
  if truthy md then
    output_name ← py_get md (py "ss_output_name") PNone;
    if truthy output_name
    then setitem lookup output_name (stem f)
    else Ok lookup
  else Ok lookup.

Fixpoint scan_files (files : list st_file) (lookup : index) : result index :=
  match files with
  | [] => Ok lookup
  | f :: rest => lookup' ← scan_file lookup f; scan_files rest lookup'
  end.

Definition build_output_name_lookup (h : host) : result index :=
  let lookup : index := ∅ in
  match available_loras h with
  | Some entries => Ok (registry_loop entries lookup)
  | None =>
      match get_lora_directory h with
      | None => Ok lookup
      | Some lora_dir =>
          match glob_safetensors h lora_dir with
          | None => Ok lookup
          | Some files => scan_files files lookup
          end
      end
  end.

(** ** [extract_loras_from_prompt] *)

Definition format_ref (r : lora_ref) : pystr :=
  let '(name, weight, lbw) := r in
  match lbw with
  | Some l =>
      if str_truthy l
      then name ++ [colon] ++ format_float weight ++ [colon] ++ l
      else name ++ [colon] ++ format_float weight
  | None => name ++ [colon] ++ format_float weight
  end.

(** The loop over the parsed references, with its two accumulators. *)
Fixpoint resolve_loop (selectable_loras : list pystr) (output_name_lookup : index)
    (parsed : list lora_ref) (checked_loras formatted_parts : list pystr)
    : list pystr * list pystr :=
  match parsed with
  | [] => (checked_loras, formatted_parts)
  | (name, weight, lbw) :: rest =>
      let formatted_parts := formatted_parts ++ [format_ref (name, weight, lbw)] in
      let checked_loras :=
        if str_in name selectable_loras then checked_loras ++ [name]
        else
          match output_name_lookup !! KStr name with
          | Some actual_filename =>
              if str_in actual_filename selectable_loras
              then checked_loras ++ [actual_filename]
              else checked_loras
          | None => checked_loras
          end in
      resolve_loop selectable_loras output_name_lookup rest
        checked_loras formatted_parts
  end.

Definition extract_loras_from_prompt (h : host) (prompt : pyval)
    (selectable_loras : option (list pystr)) : result (list pystr * pystr) :=
  match prompt with
  | PStr p =>
      if negb (str_truthy p) then Ok ([], [])
      else
        let selectable_loras := default [] selectable_loras in
        let parsed := parse_lora_syntax p in
        output_name_lookup ← build_output_name_lookup h;
        let '(checked_loras, formatted_parts) :=
          resolve_loop selectable_loras output_name_lookup parsed [] [] in
        Ok (checked_loras, join (py ",") formatted_parts)
  | _ => Ok ([], [])
  end.

End Lookup.

(** ** A reference instance of the builtins

    Plain decimal literals ([-]digits[.digits]), kept exactly as digit
    strings; ASCII lower-casing. It agrees with the interpreter on the
    short literals and ASCII names used in the examples below. *)
Module RefPy.

Definition is_digit (c : N) : bool := (48 <=? c) && (c <=? 57).

(** sign, integer digits without leading zeros, fraction digits without
    trailing zeros *)
Definition dec : Type := bool * pystr * pystr.

Definition norm_int (ds : pystr) : pystr :=
  match drop_while (λ c, c =? 48) ds with
  | [] => [48]
  | ds' => ds'
  end.

Definition norm_frac (ds : pystr) : pystr :=
  reverse (drop_while (λ c, c =? 48) (reverse ds)).

Definition unsigned_of_str (neg : bool) (s : pystr) : option dec :=
  let ip := take_while is_digit s in
  match ip, drop_while is_digit s with
  | [], _ => None
  | _, [] => Some (neg, norm_int ip, [])
  | _, c :: fp =>
      if (c =? 46) && forallb is_digit fp
      then Some (neg, norm_int ip, norm_frac fp)
      else None
  end.

Definition of_str (s : pystr) : option dec :=
  match strip s with
  | c :: s' => if c =? 45 then unsigned_of_str true s'
               else unsigned_of_str false (c :: s')
  | [] => None
  end.

Definition format (d : dec) : pystr :=
  let '(neg, ip, fp) := d in
  (if neg then [45] else []) ++ ip ++ [46] ++
  match fp with [] => [48] | _ => fp end.

Definition lower_char (c : N) : N :=
  if (65 <=? c) && (c <=? 90) then c + 32 else c.

Definition lower (s : pystr) : pystr := lower_char <$> s.

Definition builtins : PyBuiltins := {|
  pyfloat := dec;
  float_of_str := of_str;
  float_one := (false, [49], []);
  format_float := format;
  str_lower := lower;
|}.

End RefPy.

(** ** The reference grammar

    What the specification calls a reference: the tag, a name, a
    weight and optionally the layer-block weights, as written in the
    prompt. A field is a non-empty run of code points. *)

Record raw_ref := {
  raw_name : pystr;
  raw_weight : pystr;
  raw_lbw : option pystr;
}.

Definition field_char : N → bool := Re.none_of [colon; gt].
Definition tail_char : N → bool := Re.none_of [gt].

(** name, weight: non-empty, no [:] and no [>] *)
Definition is_field (t : pystr) : Prop := t ≠ [] ∧ (colon ∉ t) ∧ (gt ∉ t).

(** lbw_params: non-empty, no [>] *)
Definition is_tail (t : pystr) : Prop := t ≠ [] ∧ gt ∉ t.

Definition well_formed (r : raw_ref) : Prop :=
  is_field (raw_name r) ∧ is_field (raw_weight r) ∧
  ∀ t, raw_lbw r = Some t → is_tail t.

(** The text of a reference, from [<lora:] to [>]. *)
Definition ref_text (r : raw_ref) : pystr :=
  py "<lora:" ++ raw_name r ++ [colon] ++ raw_weight r ++
  match raw_lbw r with Some t => colon :: t | None => [] end ++ [gt].

(** A reference starts at the head of [s]. *)
Definition starts_ref (s : pystr) : Prop :=
  ∃ r rest, well_formed r ∧ s = ref_text r ++ rest.

(** The references of a prompt, left to right: at each position the
    reference starting there is taken and the scan resumes after its
    [>]; a position where none starts is stepped over. *)
Inductive tokens : pystr → list raw_ref → Prop :=
| tokens_nil : tokens [] []
| tokens_skip c s rs :
    ¬ starts_ref (c :: s) → tokens s rs → tokens (c :: s) rs
| tokens_ref r rest rs :
    well_formed r → tokens rest rs → tokens (ref_text r ++ rest) (r :: rs).

(** A prompt laid out as its references, each after the text that
    precedes it, and the text after the last one. *)
Fixpoint weave (parts : list (pystr * raw_ref)) (tail : pystr) : pystr :=
  match parts with
  | [] => tail
  | (gap, r) :: parts' => gap ++ ref_text r ++ weave parts' tail
  end.

(** The match object of a reference. *)
Definition groups_of (r : raw_ref) : Re.groups :=
  let g : Re.groups := <[2%nat := raw_weight r]> (<[1%nat := raw_name r]> ∅) in
  match raw_lbw r with
  | Some t => <[3%nat := t]> g
  | None => g
  end.

(** A hand-written scanner for one reference at the head of [s]. *)
Definition scan_ref (s : pystr) : option (raw_ref * pystr) :=
  match Re.strip_prefix (py "<lora:") s with
  | None => None
  | Some s1 =>
      match take_while field_char s1, drop_while field_char s1 with
      | (_ :: _) as n, c :: s2 =>
          if c =? colon then
            match take_while field_char s2, drop_while field_char s2 with
            | (_ :: _) as w, d :: s3 =>
                if d =? gt then
                  Some ({| raw_name := n; raw_weight := w; raw_lbw := None |}, s3)
                else
                  match take_while tail_char s3, drop_while tail_char s3 with
                  | (_ :: _) as t, _ :: s4 =>
                      Some ({| raw_name := n; raw_weight := w;
                               raw_lbw := Some t |}, s4)
                  | _, _ => None
                  end
            | _, _ => None
            end
          else None
      | _, _ => None
      end
  end.

Section Spec.
Context `{PyBuiltins}.

(** The weight of a written weight field: its number, or [1.0]. *)
Definition weight_of (w : pystr) : pyfloat :=
  match float_of_str w with
  | Some x => x
  | None => float_one
  end.

(** The parsed reference the specification assigns to a written one. *)
Definition parsed_of (r : raw_ref) : lora_ref :=
  (strip (raw_name r), weight_of (raw_weight r), (strip <$> raw_lbw r)).

(** The matching policy, first match wins. *)
Definition matched_name (selectable : list pystr) (idx : index) (name : pystr)
    : option pystr :=
  if bool_decide (name ∈ selectable) then Some name
  else match idx !! KStr name with
       | Some actual => if bool_decide (actual ∈ selectable) then Some actual else None
       | None => None
       end.

(** The canonical form, from the specification's words. *)
Definition canonical (r : lora_ref) : pystr :=
  match r.2 with
  | None => r.1.1 ++ py ":" ++ format_float r.1.2
  | Some l => r.1.1 ++ py ":" ++ format_float r.1.2 ++ py ":" ++ l
  end.

End Spec.

(** The policy as the specification words it: what one reference
    adds to the matched list. *)
Inductive policy (selectable : list pystr) (idx : index) (name : pystr)
    : list pystr → Prop :=
| direct_match :
    name ∈ selectable → policy selectable idx name [name]
| index_match actual :
    name ∉ selectable → idx !! KStr name = Some actual →
    actual ∈ selectable → policy selectable idx name [actual]
| unmatched :
    name ∉ selectable →
    (∀ actual, idx !! KStr name = Some actual → actual ∉ selectable) →
    policy selectable idx name [].

(** No reference starts anywhere in the prompt. *)
Definition no_refs (prompt : pystr) : Prop :=
  ∀ i : nat, ¬ starts_ref (drop i prompt).

(** The same, as a check that runs. *)
Fixpoint no_refs_b (prompt : pystr) : bool :=
  match scan_ref prompt with
  | Some _ => false
  | None =>
      match prompt with
      | [] => true
      | _ :: rest => no_refs_b rest
      end
  end.

(** [<], the code point every reference starts with. *)
Definition open_angle : N := 60.

(** Only whitespace. *)
Definition blank (t : pystr) : Prop := Forall (λ c, is_space c = true) t.

(** No whitespace at either end. *)
Definition unpadded (t : pystr) : Prop :=
  ∀ c, head t = Some c ∨ last t = Some c → is_space c = false.

(** [result] is [written] without the whitespace around it: what is
    cut off at either end is whitespace only, and what is left neither
    starts nor ends with whitespace. *)
Definition is_trim_of (written result : pystr) : Prop :=
  unpadded result
  ∧ ∃ left right, blank left ∧ blank right ∧ written = left ++ result ++ right.

(** Pass-through of the layer-block weights as the specification states
    it: the canonical string carries the field as written. *)
Definition lbw_carried_verbatim : Prop :=
  ∀ (B : PyBuiltins) (h : host) (idx : index) (r : raw_ref) (t : pystr)
    (selectable : option (list pystr)),
    build_output_name_lookup h = Ok idx →
    well_formed r → raw_lbw r = Some t →
    ∃ matched,
      extract_loras_from_prompt h (PStr (ref_text r)) selectable =
        Ok (matched,
            canonical (strip (raw_name r), weight_of (raw_weight r), Some t)).

(** A file the scan can digest: its metadata is empty or missing, or
    an object whose [ss_output_name], if any, is hashable. *)
Definition digestible (f : st_file) : Prop :=
  match load_lora_metadata f with
  | PDict kvs =>
      match assoc (py "ss_output_name") kvs with
      | Some (PList _) | Some (PDict _) => False
      | _ => True
      end
  | md => truthy md = false
  end.

(** ** Hosts used in the examples *)

(** Outside the web UI: no registry, no configuration. *)
Definition standalone : host := {|
  available_loras := None;
  shared := None;
  glob_safetensors := λ _, None;
|}.

(** A registry whose only entry, [file123], was trained as
    [TrainedName]. *)
Definition trained_registry : host := {|
  available_loras :=
    Some [(py "file123",
           {| metadata :=
                Some (PDict [(py "ss_output_name", PStr (py "TrainedName"))]) |})];
  shared := None;
  glob_safetensors := λ _, None;
|}.

(** A file whose header holds [md] under [__metadata__]. *)
Definition file_with (name : pystr) (md : pyval) : st_file :=
  {| stem := name; header := Some (PDict [(py "__metadata__", md)]) |}.

(** A file trained under [output_name]. *)
Definition trained_file (name output_name : pystr) : st_file :=
  file_with name (PDict [(py "ss_output_name", PStr output_name)]).

(** No registry; the default LoRA directory holds [files]. *)
Definition lora_dir_with (files : list st_file) : host := {|
  available_loras := None;
  shared := Some {| cmd_lora_dir := None; data_path := py "/data" |};
  glob_safetensors := λ p,
    if bool_decide (p = [py "/data"; py "models"; py "Lora"])
    then Some files else None;
|}.

(** [foo.safetensors] trained as [foo], [x.safetensors] as [merged]. *)
Definition unfiltered_dir : host :=
  lora_dir_with [trained_file (py "foo") (py "foo");
                 trained_file (py "x") (py "merged")].

(** Two good files around one that cannot be read. *)
Definition unreadable_dir : host :=
  lora_dir_with [trained_file (py "a") (py "TrainedA");
                 {| stem := py "b"; header := None |};
                 trained_file (py "c") (py "TrainedC")].

(** A file whose [ss_output_name] is a list. *)
Definition list_named_dir : host :=
  lora_dir_with [file_with (py "b")
                   (PDict [(py "ss_output_name", PList [PStr (py "x")])])].

(** Two good files around one whose [__metadata__] is a string. *)
Definition corrupt_dir : host :=
  lora_dir_with [trained_file (py "a") (py "TrainedA");
                 file_with (py "b") (PStr (py "oops"));
                 trained_file (py "c") (py "TrainedC")].

(** * The parameter getter: [scripts/GenParamGetter.py] *)

(** A Gradio block: its [_id], and its [children] when it has the
    attribute. *)
Inductive block := Block (id : Z) (children : option (list block)).

Definition block_id (b : block) : Z := match b with Block i _ => i end.

Definition block_children (b : block) : option (list block) :=
  match b with Block _ ch => ch end.

Fixpoint get_components_by_ids (root : block) (ids : list Z) : list block :=
  match root with
  | Block root_id children =>
      let hit := bool_decide (root_id ∈ ids) in
      let found := if hit then [root] else [] in
      let ids := if hit then filter (λ i, i ≠ root_id) ids else ids in
      match children with
      | Some blocks =>
          found ++
          (fix each (blocks : list block) : list block :=
             match blocks with
             | [] => []
             | b :: blocks' => get_components_by_ids b ids ++ each blocks'
             end) blocks
      | None => found
      end
  end.

(** [len(comps) == len(ids) and all(c._id == i for c, i in zip(comps, ids))] *)
Definition compare_components_with_ids (comps : list block) (ids : list Z) : bool :=
  bool_decide (length comps = length ids)
  && forallb (λ ci, bool_decide (block_id ci.1 = ci.2)) (zip comps ids).

(** The blocks of a tree, parents before children, children left to
    right. *)
Fixpoint preorder (root : block) : list block :=
  match root with
  | Block _ children =>
      root ::
      match children with
      | Some blocks =>
          (fix each (blocks : list block) : list block :=
             match blocks with
             | [] => []
             | b :: blocks' => preorder b ++ each blocks'
             end) blocks
      | None => []
      end
  end.

(** A dependency of a Gradio 3 app: the keys the getter reads. *)
Record dependency3 := {
  targets3 : list Z;
  trigger3 : option pystr;      (* [x.get("trigger")] *)
  inputs3 : list Z;
  outputs3 : list Z;
}.

(** An entry of [demo.fns]. *)
Record block_fn := { fn_inputs : list block }.

(** A dependency of the configuration of a Gradio 4 app; a target is
    a pair of an id and an event name. *)
Record dependency4 := {
  targets4 : list (option Z * pystr);
  inputs4 : list Z;
  outputs4 : list Z;
}.

(** [demo]: with a [dependencies] attribute (Gradio 3), or with
    [config["dependencies"]] and [blocks] (Gradio 4). *)
Inductive demo_t :=
| Gradio3 (dependencies : list dependency3) (fns : list block_fn)
| Gradio4 (dependencies : list dependency4) (blocks : gmap Z block).

(** What one round of the loop over the two tabs does. *)
Inductive tab_outcome :=
| Params (params : list block)   (* assigned to the tab's slot *)
| NoParams                       (* [continue], or an exception that is caught *)
| IndexError.                    (* escapes *)

(** [[x for x in demo.dependencies
      if _id in x["targets"] and x.get("trigger") == "click"]] *)
Definition click_deps3 (dependencies : list dependency3) (_id : Z)
    : list dependency3 :=
  filter (λ x, _id ∈ targets3 x ∧ trigger3 x = Some (py "click")) dependencies.

(** [x["targets"][0][1] == "click" and _id in x["targets"][0]];
    [None] when [x["targets"]] is empty. *)
Definition is_click_dep4 (_id : Z) (x : dependency4) : option bool :=
  match targets4 x with
  | [] => None
  | (target, event) :: _ =>
      Some (bool_decide (event = py "click") && bool_decide (target = Some _id))
  end.

Fixpoint click_deps4 (dependencies : list dependency4) (_id : Z)
    : option (list dependency4) :=
  match dependencies with
  | [] => Some []
  | x :: rest =>
      match is_click_dep4 _id x with
      | None => None
      | Some keep =>
          match click_deps4 rest _id with
          | None => None
          | Some deps => Some (if keep then x :: deps else deps)
          end
      end
  end.

(** [[demo.blocks[x] for x in dep['inputs']]]; [None] stands for
    [KeyError]. *)
Fixpoint blocks_of (blocks : gmap Z block) (inputs : list Z)
    : option (list block) :=
  match inputs with
  | [] => Some []
  | x :: rest =>
      match blocks !! x with
      | None => None
      | Some b =>
          match blocks_of blocks rest with
          | None => None
          | Some bs => Some (b :: bs)
          end
      end
  end.

(** The body of the loop of [get_params_components], for the tab
    whose generate button is [_id]. *)
Definition tab_params (demo : demo_t) (_id : Z) : tab_outcome :=
  match demo with
  | Gradio3 dependencies fns =>
      let deps := click_deps3 dependencies _id in
      match list_find (λ d, length (outputs3 d) = 4%nat) deps with
      | None => NoParams
      | Some (_, dep) =>
          let matching :=
            filter (λ p, compare_components_with_ids (fn_inputs p) (inputs3 dep))
                   fns in
          match matching with
          | [] => NoParams
          | p :: _ => Params (fn_inputs p)
          end
      end
  | Gradio4 dependencies blocks =>
      match click_deps4 dependencies _id with
      | None => IndexError
      | Some deps =>
          match list_find (λ d, length (outputs4 d) = 4%nat) deps with
          | None => NoParams
          | Some (_, dep) =>
              match blocks_of blocks (inputs4 dep) with
              | Some params => Params params
              | None => NoParams
              end
          end
      end
  end.

(** A slot of [scripts.mergers.components] written by the getter:
    the attribute may be missing. *)
Inductive slot :=
| Missing
| Holds (v : option (list block)).

Definition slot_truthy (s : slot) : option bool :=
  match s with
  | Missing => None                        (* [AttributeError] *)
  | Holds None => Some false
  | Holds (Some []) => Some false
  | Holds (Some (_ :: _)) => Some true
  end.

(** The class attributes of [GenParamGetter] and the two slots. *)
Record getter := {
  txt2img_gen_button : option block;
  img2img_gen_button : option block;
  events_assigned : bool;
  txt2img_params : slot;
  img2img_params : slot;
}.

Definition set_params (_is_txt2img : bool) (params : list block) (g : getter)
    : getter :=
  if _is_txt2img
  then {| txt2img_gen_button := txt2img_gen_button g;
          img2img_gen_button := img2img_gen_button g;
          events_assigned := events_assigned g;
          txt2img_params := Holds (Some params);
          img2img_params := img2img_params g |}
  else {| txt2img_gen_button := txt2img_gen_button g;
          img2img_gen_button := img2img_gen_button g;
          events_assigned := events_assigned g;
          txt2img_params := txt2img_params g;
          img2img_params := Holds (Some params) |}.

Definition set_events_assigned (g : getter) : getter :=
  {| txt2img_gen_button := txt2img_gen_button g;
     img2img_gen_button := img2img_gen_button g;
     events_assigned := true;
     txt2img_params := txt2img_params g;
     img2img_params := img2img_params g |}.

(** How a call ends: it returns, or an exception escapes; the state
    is the one reached. *)
Inductive ending := Returns | Escapes.

(** The loop over the two tabs. *)
Fixpoint tabs_loop (demo : demo_t) (tabs : list (Z * bool)) (g : getter)
    : getter * ending :=
  match tabs with
  | [] => (g, Returns)
  | (_id, _is_txt2img) :: rest =>
      match tab_params demo _id with
      | Params params => tabs_loop demo rest (set_params _is_txt2img params g)
      | NoParams => tabs_loop demo rest g
      | IndexError => (g, Escapes)
      end
  end.

(** [get_params_components]; [setup_returns] tells whether
    [_setup_click_events()], run inside [with demo:], returns or
    raises. *)
Definition get_params_components (setup_returns : bool) (demo : demo_t)
    (g : getter) : getter * ending :=
  match txt2img_gen_button g, img2img_gen_button g with
  | Some txt, Some img =>
      match tabs_loop demo [(block_id txt, true); (block_id img, false)] g with
      | (g, Escapes) => (g, Escapes)
      | (g, Returns) =>
          if events_assigned g then (g, Returns)
          else
            match slot_truthy (txt2img_params g) with
            | None => (g, Escapes)
            | Some false => (g, Returns)
            | Some true =>
                if setup_returns then (set_events_assigned g, Returns)
                else (g, Returns)
            end
      end
  | _, _ => (g, Returns)
  end.

(** ** An app used in the examples *)

Definition txt_button : block := Block 1 None.
Definition img_button : block := Block 2 None.
Definition prompt_box : block := Block 11 None.
Definition steps_box : block := Block 12 None.

(** The two buttons around a row that holds the two boxes. *)
Definition ui_tree : block :=
  Block 0 (Some [txt_button;
                 Block 10 (Some [prompt_box; steps_box]);
                 img_button]).

(** A Gradio 3 app whose txt2img button has one click dependency. *)
Definition demo3 : demo_t :=
  Gradio3
    [{| targets3 := [1%Z]; trigger3 := Some (py "click");
        inputs3 := [11%Z; 12%Z]; outputs3 := [20%Z; 21%Z; 22%Z; 23%Z] |}]
    [{| fn_inputs := [prompt_box; steps_box] |}].

(** The same app in Gradio 4. *)
Definition demo4 : demo_t :=
  Gradio4
    [{| targets4 := [(Some 1%Z, py "click")];
        inputs4 := [11%Z; 12%Z]; outputs4 := [20%Z; 21%Z; 22%Z; 23%Z] |}]
    (<[11%Z := prompt_box]> (<[12%Z := steps_box]> ∅)).

(** A Gradio 4 app with a dependency that has no target. *)
Definition demo4_no_target : demo_t :=
  Gradio4 [{| targets4 := []; inputs4 := []; outputs4 := [] |}] ∅.

(** Both buttons seen, nothing assigned yet, no slot written. *)
Definition fresh_getter : getter := {|
  txt2img_gen_button := Some txt_button;
  img2img_gen_button := Some img_button;
  events_assigned := false;
  txt2img_params := Missing;
  img2img_params := Missing;
|}.

(** A registry in which two entries were trained under one name. *)
Definition twice_trained : host := {|
  available_loras :=
    Some [(py "old",
           {| metadata :=
                Some (PDict [(py "ss_output_name", PStr (py "Style"))]) |});
          (py "new",
           {| metadata :=
                Some (PDict [(py "ss_output_name", PStr (py "Style"))]) |});
          (py "plain", {| metadata := None |})];
  shared := None;
  glob_safetensors := λ _, None;
|}.

(** A directory in which two files were trained under one name. *)
Definition twice_trained_dir : host :=
  lora_dir_with [trained_file (py "old") (py "Style");
                 trained_file (py "new") (py "Style");
                 {| stem := py "plain"; header := None |}].

(** * Properties *)

(** ** Runs of a character class *)

Lemma take_drop_while {A} (p : A → bool) (l : list A) :
  take_while p l ++ drop_while p l = l.
Proof. induction l as [|x l IH]; simpl; [done|]. destruct (p x); simpl; by f_equal. Qed.

Lemma take_while_Forall {A} (p : A → bool) (l : list A) :
  Forall (λ x, p x = true) (take_while p l).
Proof.
  induction l as [|x l IH]; simpl; [constructor|].
  destruct (p x) eqn:E; by constructor.
Qed.

Lemma drop_while_head {A} (p : A → bool) (l : list A) x l' :
  drop_while p l = x :: l' → p x = false.
Proof.
  induction l as [|y l IH]; simpl; [done|].
  destruct (p y) eqn:E; [done|]. by intros [= <- _].
Qed.

Lemma take_while_app {A} (p : A → bool) (a l : list A) :
  Forall (λ x, p x = true) a →
  take_while p (a ++ l) = a ++ take_while p l.
Proof. induction 1 as [|x a Hx _ IH]; simpl; [done|]. by rewrite Hx, IH. Qed.

Lemma drop_while_app {A} (p : A → bool) (a l : list A) :
  Forall (λ x, p x = true) a →
  drop_while p (a ++ l) = drop_while p l.
Proof. induction 1 as [|x a Hx _ IH]; simpl; [done|]. by rewrite Hx. Qed.

Lemma take_while_stop {A} (p : A → bool) (x : A) (l : list A) :
  p x = false → take_while p (x :: l) = [].
Proof. simpl. by intros ->. Qed.

Lemma drop_while_stop {A} (p : A → bool) (x : A) (l : list A) :
  p x = false → drop_while p (x :: l) = x :: l.
Proof. simpl. by intros ->. Qed.

Lemma drop_while_all {A} (p : A → bool) (l : list A) :
  Forall (λ x, p x = true) l → drop_while p l = [].
Proof. induction 1 as [|x a Hx _ IH]; simpl; [done|]. by rewrite Hx. Qed.

Lemma consumed_app (a l : pystr) : Re.consumed (a ++ l) l = a.
Proof.
  unfold Re.consumed. rewrite length_app.
  replace (length a + length l - length l)%nat with (length a) by lia.
  by rewrite take_app_length.
Qed.

Lemma consumed_drop_while (p : N → bool) (s : pystr) :
  Re.consumed s (drop_while p s) = take_while p s.
Proof. rewrite <- (take_drop_while p s) at 1. apply consumed_app. Qed.

Lemma none_of_true cs c : Re.none_of cs c = true ↔ c ∉ cs.
Proof.
  unfold Re.none_of. rewrite negb_true_iff, bool_decide_eq_false. done.
Qed.

Lemma Forall_none_of cs (t : pystr) :
  Forall (λ c, Re.none_of cs c = true) t ↔ ∀ c, c ∈ cs → c ∉ t.
Proof.
  rewrite Forall_forall. split.
  - intros Ht c Hc Hin. apply Ht in Hin. by apply none_of_true in Hin.
  - intros Ht c Hin. apply none_of_true. intros Hc. by apply (Ht c).
Qed.

Lemma field_chars (t : pystr) :
  Forall (λ c, field_char c = true) t ↔ (colon ∉ t) ∧ (gt ∉ t).
Proof.
  unfold field_char. rewrite Forall_none_of. split.
  - intros Ht. split; apply Ht; rewrite !elem_of_cons; tauto.
  - intros [H1 H2] c. rewrite !elem_of_cons, elem_of_nil.
    intros [->|[->|[]]]; done.
Qed.

Lemma tail_chars (t : pystr) :
  Forall (λ c, tail_char c = true) t ↔ gt ∉ t.
Proof.
  unfold tail_char. rewrite Forall_none_of. split.
  - intros Ht. apply Ht. by left.
  - intros H1 c. rewrite !elem_of_cons, elem_of_nil. intros [->|[]]. done.
Qed.

(** ** The backtracking matcher is the scanner *)

(** When the continuation can only succeed where the run ends, the
    greedy choice is the only one. *)
Lemma many_greedy {R} (p : N → bool) (s : pystr) (k : pystr → option R) :
  (∀ c s', p c = true → k (c :: s') = None) →
  Re.many p s k = k (drop_while p s).
Proof.
  intros Hk. induction s as [|c s IH]; simpl; [done|].
  destruct (p c) eqn:E; [|done].
  rewrite IH. destruct (k (drop_while p s)) eqn:E'; [done|].
  by apply Hk.
Qed.

Lemma many1_greedy {R} (p : N → bool) (s : pystr) (k : pystr → option R) :
  (∀ c s', p c = true → k (c :: s') = None) →
  Re.many1 p s k =
    match take_while p s with
    | [] => None
    | _ :: _ => k (drop_while p s)
    end.
Proof.
  intros Hk. destruct s as [|c s]; simpl; [done|].
  destruct (p c) eqn:E; [|done]. by apply many_greedy.
Qed.

Lemma field_char_not_colon c : field_char c = true → (c =? colon) = false.
Proof.
  intros Hc. apply none_of_true in Hc. apply N.eqb_neq. intros ->.
  apply Hc. by left.
Qed.

Lemma field_char_not_gt c : field_char c = true → (c =? gt) = false.
Proof.
  intros Hc. apply none_of_true in Hc. apply N.eqb_neq. intros ->.
  apply Hc. right. by left.
Qed.

Lemma tail_char_not_gt c : tail_char c = true → (c =? gt) = false.
Proof.
  intros Hc. apply none_of_true in Hc. apply N.eqb_neq. intros ->.
  apply Hc. by left.
Qed.

Lemma field_char_false c : field_char c = false → c = colon ∨ c = gt.
Proof.
  unfold field_char, Re.none_of. rewrite negb_false_iff, bool_decide_eq_true.
  rewrite !elem_of_cons, elem_of_nil. tauto.
Qed.

Lemma tail_char_false c : tail_char c = false → c = gt.
Proof.
  unfold tail_char, Re.none_of. rewrite negb_false_iff, bool_decide_eq_true.
  rewrite !elem_of_cons, elem_of_nil. tauto.
Qed.

Lemma match_at_scan (s : pystr) :
  Re.match_at pattern s = (λ x, (groups_of x.1, x.2)) <$> scan_ref s.
Proof.
  unfold Re.match_at, scan_ref, pattern.
  cbn [Re.exec].
  destruct (Re.strip_prefix (py "<lora:") s) as [s1|]; [|done].
  rewrite many1_greedy; cycle 1.
  { intros c s' Hc. cbn [Re.exec Re.strip_prefix]. by rewrite N.eqb_sym, (field_char_not_colon c). }
  fold field_char.
  destruct (take_while field_char s1) as [|n0 n] eqn:En; [done|].
  rewrite consumed_drop_while, En.
  destruct (drop_while field_char s1) as [|c s2] eqn:Ed; [done|].
  cbn [Re.strip_prefix]. rewrite N.eqb_sym.
  destruct (c =? colon) eqn:Ec; [|done].
  rewrite many1_greedy; cycle 1.
  { intros d s' Hd. cbn [Re.exec Re.strip_prefix].
    by rewrite !(N.eqb_sym _ d), (field_char_not_colon d), (field_char_not_gt d). }
  fold field_char.
  destruct (take_while field_char s2) as [|w0 w] eqn:Ew; [done|].
  rewrite consumed_drop_while, Ew.
  destruct (drop_while field_char s2) as [|d s3] eqn:Ed2; [done|].
  pose proof (drop_while_head _ _ _ _ Ed2) as Hd.
  apply field_char_false in Hd.
  cbn [Re.strip_prefix]. rewrite !(N.eqb_sym _ d).
  destruct (d =? gt) eqn:Eg.
  - (* the weight is followed by [>] *)
    apply N.eqb_eq in Eg. subst d.
    replace (gt =? colon) with false by done. done.
  - destruct Hd as [-> | ->]; [|by rewrite N.eqb_refl in Eg].
    rewrite N.eqb_refl.
    rewrite many1_greedy; cycle 1.
    { intros e s' He. cbn [Re.exec Re.strip_prefix]. by rewrite N.eqb_sym, (tail_char_not_gt e). }
    fold tail_char.
    destruct (take_while tail_char s3) as [|t0 t] eqn:Et; [done|].
    rewrite consumed_drop_while, Et.
    destruct (drop_while tail_char s3) as [|e s4] eqn:Ed3; [done|].
    pose proof (drop_while_head _ _ _ _ Ed3) as He.
    apply tail_char_false in He. subst e. done.
Qed.

(** ** The scanner recognises the reference grammar *)

Lemma strip_prefix_app (t s : pystr) : Re.strip_prefix t (t ++ s) = Some s.
Proof. induction t as [|a t IH]; simpl; [done|]. by rewrite N.eqb_refl. Qed.

Lemma strip_prefix_Some (t s s' : pystr) :
  Re.strip_prefix t s = Some s' → s = t ++ s'.
Proof.
  revert s. induction t as [|a t IH]; intros s; simpl.
  - by intros [= ->].
  - destruct s as [|b s]; [done|].
    destruct (a =? b) eqn:E; [|done].
    apply N.eqb_eq in E. subst b. intros Hs. by rewrite (IH _ Hs).
Qed.

Lemma ref_text_unfold (r : raw_ref) (rest : pystr) :
  ref_text r ++ rest =
  py "<lora:" ++ raw_name r ++ colon :: raw_weight r ++
  match raw_lbw r with
  | Some t => colon :: t ++ gt :: rest
  | None => gt :: rest
  end.
Proof.
  unfold ref_text. rewrite <- !app_assoc. f_equal. f_equal.
  simpl. f_equal. f_equal. by destruct (raw_lbw r).
Qed.

Lemma scan_ref_complete (r : raw_ref) (rest : pystr) :
  well_formed r → scan_ref (ref_text r ++ rest) = Some (r, rest).
Proof.
  destruct r as [n w l]. intros ([Hn0 Hn] & [Hw0 Hw] & Hl).
  cbn [raw_name raw_weight raw_lbw] in *.
  apply field_chars in Hn, Hw.
  rewrite ref_text_unfold. unfold scan_ref. rewrite strip_prefix_app.
  cbn [raw_name raw_weight raw_lbw].
  rewrite take_while_app, drop_while_app by done.
  rewrite take_while_stop, drop_while_stop by done.
  rewrite app_nil_r. destruct n as [|n0 n]; [done|].
  rewrite N.eqb_refl.
  assert (Hstop : ∀ tl, field_char
    (match l with Some _ => colon | None => gt end) = false ∧
    match l with Some t => colon :: t ++ gt :: tl | None => gt :: tl end
    = match l with Some _ => colon | None => gt end ::
      match l with Some t => t ++ gt :: tl | None => tl end).
  { intros tl. by destruct l. }
  destruct (Hstop rest) as [Hs ->].
  rewrite take_while_app, drop_while_app by done.
  rewrite take_while_stop, drop_while_stop by done.
  rewrite app_nil_r. destruct w as [|w0 w]; [done|].
  destruct l as [t|].
  - replace (colon =? gt) with false by done.
    destruct (Hl t eq_refl) as [Ht0 Ht]. apply tail_chars in Ht.
    rewrite take_while_app, drop_while_app by done.
    rewrite take_while_stop, drop_while_stop by done.
    rewrite app_nil_r. by destruct t.
  - by rewrite N.eqb_refl.
Qed.

Lemma scan_ref_sound (s : pystr) (r : raw_ref) (rest : pystr) :
  scan_ref s = Some (r, rest) → well_formed r ∧ s = ref_text r ++ rest.
Proof.
  unfold scan_ref.
  destruct (Re.strip_prefix (py "<lora:") s) as [s1|] eqn:Ep; [|done].
  apply strip_prefix_Some in Ep.
  pose proof (take_drop_while field_char s1) as E1.
  pose proof (take_while_Forall field_char s1) as F1.
  destruct (take_while field_char s1) as [|n0 n]; [done|].
  destruct (drop_while field_char s1) as [|c s2]; [done|].
  destruct (c =? colon) eqn:Ec; [|done]. apply N.eqb_eq in Ec. subst c.
  pose proof (take_drop_while field_char s2) as E2.
  pose proof (take_while_Forall field_char s2) as F2.
  destruct (take_while field_char s2) as [|w0 w]; [done|].
  destruct (drop_while field_char s2) as [|d s3] eqn:Ed; [done|].
  pose proof (drop_while_head _ _ _ _ Ed) as Hd. apply field_char_false in Hd.
  apply field_chars in F1, F2.
  destruct (d =? gt) eqn:Eg.
  - apply N.eqb_eq in Eg. subst d. intros [= <- <-]. split.
    + destruct F1, F2. unfold well_formed, is_field. simpl. by repeat split.
    + rewrite ref_text_unfold. simpl. subst s. by rewrite <- E1, <- E2, <- ?app_assoc.
  - destruct Hd as [-> | ->]; [|by rewrite N.eqb_refl in Eg].
    pose proof (take_drop_while tail_char s3) as E3.
    pose proof (take_while_Forall tail_char s3) as F3.
    destruct (take_while tail_char s3) as [|t0 t]; [done|].
    destruct (drop_while tail_char s3) as [|e s4] eqn:Ee; [done|].
    pose proof (drop_while_head _ _ _ _ Ee) as He. apply tail_char_false in He.
    subst e. apply tail_chars in F3. intros [= <- <-]. split.
    + destruct F1, F2. unfold well_formed, is_field, is_tail. simpl.
      split; [done|]. split; [done|]. by intros ? [= <-].
    + rewrite ref_text_unfold. simpl. subst s.
      by rewrite <- E1, <- E2, <- E3, <- ?app_assoc.
Qed.

Lemma starts_ref_scan (s : pystr) : starts_ref s ↔ is_Some (scan_ref s).
Proof.
  split.
  - intros (r & rest & Hr & ->). rewrite scan_ref_complete by done. by eexists.
  - intros [[r rest] Hs]. apply scan_ref_sound in Hs as [Hr ->]. by exists r, rest.
Qed.

Lemma match_at_ref (r : raw_ref) (rest : pystr) :
  well_formed r → Re.match_at pattern (ref_text r ++ rest) = Some (groups_of r, rest).
Proof. intros Hr. by rewrite match_at_scan, scan_ref_complete. Qed.

Lemma match_at_None (s : pystr) :
  ¬ starts_ref s → Re.match_at pattern s = None.
Proof.
  rewrite starts_ref_scan, match_at_scan. intros Hs.
  destruct (scan_ref s); [|done]. destruct Hs. by eexists.
Qed.

(** The written form determines the reference. *)
Lemma ref_text_inj (r1 r2 : raw_ref) (rest1 rest2 : pystr) :
  well_formed r1 → well_formed r2 →
  ref_text r1 ++ rest1 = ref_text r2 ++ rest2 → r1 = r2 ∧ rest1 = rest2.
Proof.
  intros H1 H2 E.
  pose proof (scan_ref_complete r1 rest1 H1) as E1.
  pose proof (scan_ref_complete r2 rest2 H2) as E2.
  rewrite E in E1. rewrite E1 in E2. by injection E2.
Qed.

(** ** [finditer] walks the references of the prompt *)

Lemma finditer_from_skip (r : Re.regex) (pre rest : pystr) :
  Re.finditer_from r (pre ++ rest) (length pre) = Re.finditer_from r rest 0.
Proof. induction pre as [|c pre IH]; [done|]. simpl. apply IH. Qed.

Lemma finditer_match (r : Re.regex) (pre rest : pystr) (g : Re.groups) :
  pre ≠ [] →
  Re.match_at r (pre ++ rest) = Some (g, rest) →
  Re.finditer r (pre ++ rest) = g :: Re.finditer r rest.
Proof.
  intros Hpre Hm. destruct pre as [|c pre]; [done|].
  change ((c :: pre) ++ rest) with (c :: (pre ++ rest)) in *.
  unfold Re.finditer. cbn [Re.finditer_from]. rewrite Hm.
  f_equal.
  replace (length (c :: pre ++ rest) - length rest - 1)%nat with (length pre)
    by (cbn [length]; rewrite length_app; lia).
  apply finditer_from_skip.
Qed.

Lemma finditer_no_match (r : Re.regex) (c : N) (s : pystr) :
  Re.match_at r (c :: s) = None →
  Re.finditer r (c :: s) = Re.finditer r s.
Proof. intros Hm. unfold Re.finditer. cbn [Re.finditer_from]. by rewrite Hm. Qed.

Lemma ref_text_nonempty (r : raw_ref) : ref_text r ≠ [].
Proof. done. Qed.

Lemma scan_ref_shorter (s : pystr) (r : raw_ref) (rest : pystr) :
  scan_ref s = Some (r, rest) → (length rest < length s)%nat.
Proof.
  intros Hs. apply scan_ref_sound in Hs as [_ ->].
  unfold ref_text. rewrite !length_app. simpl. lia.
Qed.

Lemma finditer_tokens (s : pystr) (rs : list raw_ref) :
  tokens s rs → Re.finditer pattern s = groups_of <$> rs.
Proof.
  induction 1 as [|c s rs Hno _ IH|r rest rs Hr _ IH].
  - done.
  - rewrite finditer_no_match by by apply match_at_None. done.
  - rewrite (finditer_match _ _ _ (groups_of r)).
    + by rewrite IH.
    + apply ref_text_nonempty.
    + by apply match_at_ref.
Qed.

Lemma tokens_inv (s : pystr) (rs : list raw_ref) :
  tokens s rs →
  match scan_ref s with
  | Some (r, rest) => ∃ rs', rs = r :: rs' ∧ tokens rest rs'
  | None =>
      match s with
      | [] => rs = []
      | _ :: s' => tokens s' rs
      end
  end.
Proof.
  destruct 1 as [|c s rs Hno Ht|r rest rs Hr Ht].
  - done.
  - rewrite starts_ref_scan in Hno. destruct (scan_ref (c :: s)); [|done].
    destruct Hno. by eexists.
  - rewrite scan_ref_complete by done. by exists rs.
Qed.

Lemma tokens_total (s : pystr) : ∃ rs, tokens s rs.
Proof.
  remember (length s) as n eqn:Hn. revert s Hn.
  induction n as [n IH] using lt_wf_ind. intros s ->.
  destruct (scan_ref s) as [[r rest]|] eqn:Hs.
  - destruct (IH (length rest)) with (s := rest) as [rs Hrs]; [|done|].
    { by eapply scan_ref_shorter. }
    apply scan_ref_sound in Hs as [Hr ->]. exists (r :: rs). by constructor.
  - destruct s as [|c s]; [exists []; constructor|].
    destruct (IH (length s)) with (s := s) as [rs Hrs]; [simpl; lia|done|].
    exists rs. constructor; [|done]. rewrite starts_ref_scan, Hs. by intros [].
Qed.

Lemma tokens_functional (s : pystr) (rs1 rs2 : list raw_ref) :
  tokens s rs1 → tokens s rs2 → rs1 = rs2.
Proof.
  remember (length s) as n eqn:Hn. revert s Hn rs1 rs2.
  induction n as [n IH] using lt_wf_ind. intros s -> rs1 rs2 H1 H2.
  apply tokens_inv in H1, H2.
  destruct (scan_ref s) as [[r rest]|] eqn:Hs.
  - destruct H1 as (rs1' & -> & H1), H2 as (rs2' & -> & H2). f_equal.
    eapply (IH (length rest)); [by eapply scan_ref_shorter|done..].
  - destruct s as [|c s]; [congruence|].
    eapply (IH (length s)); [simpl; lia|done..].
Qed.

Lemma tokens_well_formed (s : pystr) (rs : list raw_ref) :
  tokens s rs → Forall well_formed rs.
Proof. induction 1; by try constructor. Qed.

Lemma tokens_weave (s : pystr) (rs : list raw_ref) :
  tokens s rs →
  ∃ (gaps : list pystr) (tail : pystr),
    length gaps = length rs ∧ s = weave (zip gaps rs) tail.
Proof.
  induction 1 as [|c s rs Hno _ IH|r rest rs Hr _ IH].
  - by exists [], [].
  - destruct IH as (gaps & tail & Hlen & ->).
    destruct rs as [|r rs], gaps as [|g gaps]; try done.
    + by exists [], (c :: tail).
    + by exists ((c :: g) :: gaps), tail.
  - destruct IH as (gaps & tail & Hlen & ->).
    exists ([] :: gaps), tail. split; [|done]. cbn [length]. by rewrite Hlen.
Qed.

Section ParserFacts.
Context `{PyBuiltins}.

Lemma ref_of_match_groups (r : raw_ref) :
  well_formed r → ref_of_match (groups_of r) = parsed_of r.
Proof.
  destruct r as [n w l]. intros (_ & _ & Hl). cbn [raw_lbw] in Hl.
  unfold ref_of_match, parsed_of, groups_of, group, weight_of.
  cbn [raw_name raw_weight raw_lbw].
  destruct l as [t|].
  - destruct (Hl t eq_refl) as [Ht _].
    repeat (rewrite lookup_insert_eq || rewrite lookup_insert_ne by done).
    by destruct t.
  - repeat (rewrite lookup_insert_eq || rewrite lookup_insert_ne by done).
    by rewrite lookup_empty.
Qed.

Lemma parse_tokens (prompt : pystr) (rs : list raw_ref) :
  tokens prompt rs → parse_lora_syntax prompt = parsed_of <$> rs.
Proof.
  intros Ht. unfold parse_lora_syntax. rewrite (finditer_tokens _ _ Ht).
  rewrite <- list_fmap_compose. apply Forall_fmap_ext.
  eapply Forall_impl; [by eapply tokens_well_formed|].
  intros r Hr. by apply ref_of_match_groups.
Qed.

End ParserFacts.

(** ** The resolver loop *)

Section ResolverFacts.
Context `{PyBuiltins}.

Lemma resolve_loop_spec (sel : list pystr) (idx : index) (parsed : list lora_ref)
    (checked parts : list pystr) :
  resolve_loop sel idx parsed checked parts =
    (checked ++ omap (λ r : lora_ref, matched_name sel idx r.1.1) parsed,
     parts ++ (format_ref <$> parsed)).
Proof.
  revert checked parts.
  induction parsed as [|[[name weight] lbw] parsed IH]; intros checked parts.
  - by rewrite !app_nil_r.
  - cbn [resolve_loop]. rewrite IH. cbn [omap list_omap fmap list_fmap].
    unfold matched_name at 2, str_in. cbn [fst snd].
    rewrite <- !app_assoc. f_equal.
    destruct (bool_decide (name ∈ sel)); [by rewrite <- app_assoc|].
    destruct (idx !! KStr name) as [actual|]; [|done].
    destruct (bool_decide (actual ∈ sel)); [by rewrite <- app_assoc|done].
Qed.

(** The result of a call on a string, once the index is built. *)
Lemma extract_spec (h : host) (idx : index) (prompt : pystr)
    (selectable : option (list pystr)) :
  build_output_name_lookup h = Ok idx →
  extract_loras_from_prompt h (PStr prompt) selectable =
    Ok (omap (λ r : lora_ref, matched_name (default [] selectable) idx r.1.1)
          (parse_lora_syntax prompt),
        join (py ",") (format_ref <$> parse_lora_syntax prompt)).
Proof.
  intros Hb. unfold extract_loras_from_prompt.
  destruct prompt as [|c prompt]; [done|].
  cbn [str_truthy negb]. rewrite Hb. cbn [mbind result_bind].
  by rewrite resolve_loop_spec.
Qed.

Lemma format_ref_name (r : lora_ref) :
  ∃ tl, format_ref r = r.1.1 ++ py ":" ++ tl.
Proof.
  destruct r as [[name weight] [l|]]; cbn [format_ref fst snd].
  - destruct (str_truthy l); eauto.
  - eauto.
Qed.

End ResolverFacts.

(** ** [strip] *)

Lemma strip_blank (t : pystr) : blank t → strip t = [].
Proof.
  unfold blank. intros Ht. unfold strip, lstrip. by rewrite drop_while_all.
Qed.

Lemma drop_while_head_false {A} (p : A → bool) (l : list A) :
  (∀ x, head l = Some x → p x = false) → drop_while p l = l.
Proof.
  destruct l as [|x l]; [done|]. intros Hx. simpl. by rewrite (Hx x).
Qed.

Lemma strip_unpadded (t : pystr) : unpadded t → strip t = t.
Proof.
  intros Ht. unfold strip, lstrip, rstrip.
  rewrite (drop_while_head_false is_space t)
    by (intros c Hc; apply Ht; by left).
  rewrite drop_while_head_false; [apply reverse_involutive|].
  intros c Hc. apply Ht. right. by rewrite <- head_reverse.
Qed.

Lemma blank_no_gt (t : pystr) : blank t → gt ∉ t.
Proof.
  intros Ht Hin. unfold blank in Ht. rewrite Forall_forall in Ht.
  by apply Ht in Hin.
Qed.

Lemma no_refs_b_true (prompt : pystr) : no_refs_b prompt = true → no_refs prompt.
Proof.
  induction prompt as [|c prompt IH]; intros Hb i.
  - rewrite drop_nil, starts_ref_scan. by intros [].
  - cbn [no_refs_b] in Hb.
    destruct (scan_ref (c :: prompt)) eqn:Hs; [done|].
    destruct i as [|i]; [|by apply IH].
    rewrite starts_ref_scan. cbn [drop]. rewrite Hs. by intros [].
Qed.

(** ** Prompts of one reference, prompts of none *)

Lemma tokens_single (r : raw_ref) : well_formed r → tokens (ref_text r) [r].
Proof.
  intros Hr. rewrite <- (app_nil_r (ref_text r)).
  constructor; [done|constructor].
Qed.

Lemma tokens_no_refs (prompt : pystr) : no_refs prompt → tokens prompt [].
Proof.
  induction prompt as [|c prompt IH]; intros Hno; [constructor|].
  constructor.
  - apply (Hno 0%nat).
  - apply IH. intros i. apply (Hno (S i)).
Qed.

Ltac field_ok :=
  unfold well_formed, is_field, is_tail;
  cbn [raw_name raw_weight raw_lbw];
  repeat split;
  try (apply (bool_decide_unpack _); by vm_compute);
  try (simplify_eq; apply (bool_decide_unpack _); by vm_compute);
  try done.

Section Claims.
Context `{PyBuiltins}.

Lemma omap_concat {A B} (f : A → option B) (l : list A) :
  omap f l = concat ((λ x, option_list (f x)) <$> l).
Proof.
  induction l as [|x l IH]; [done|]. cbn [omap list_omap fmap list_fmap concat].
  rewrite <- IH. by destruct (f x).
Qed.

Lemma omap_fmap {A B C} (g : A → B) (f : B → option C) (l : list A) :
  omap f (g <$> l) = omap (λ x, f (g x)) l.
Proof.
  induction l as [|x l IH]; [done|]. cbn [omap list_omap fmap list_fmap].
  by rewrite <- IH.
Qed.

Lemma matched_name_policy (sel : list pystr) (idx : index) (name : pystr) :
  policy sel idx name (option_list (matched_name sel idx name)).
Proof.
  unfold matched_name. case_bool_decide as Hin; [by constructor|].
  destruct (idx !! KStr name) as [actual|] eqn:Hk.
  - case_bool_decide as Hact.
    + by econstructor.
    + apply unmatched; [done|]. intros a Ha. rewrite Hk in Ha. by simplify_eq.
  - apply unmatched; [done|]. intros a Ha. by rewrite Hk in Ha.
Qed.

Lemma extract_tokens (h : host) (idx : index) (prompt : pystr)
    (refs : list raw_ref) (selectable : option (list pystr)) :
  build_output_name_lookup h = Ok idx →
  tokens prompt refs →
  extract_loras_from_prompt h (PStr prompt) selectable =
    Ok (omap (λ r, matched_name (default [] selectable) idx (strip (raw_name r))) refs,
        join (py ",") ((λ r, format_ref (parsed_of r)) <$> refs)).
Proof.
  intros Hb Ht. rewrite (extract_spec _ idx) by done.
  rewrite (parse_tokens _ _ Ht), <- list_fmap_compose.
  by rewrite omap_fmap.
Qed.

Lemma extract_single (h : host) (idx : index) (r : raw_ref)
    (selectable : option (list pystr)) :
  build_output_name_lookup h = Ok idx →
  well_formed r →
  extract_loras_from_prompt h (PStr (ref_text r)) selectable =
    Ok (option_list (matched_name (default [] selectable) idx (strip (raw_name r))),
        format_ref (parsed_of r)).
Proof.
  intros Hb Hr. rewrite (extract_tokens _ idx _ [r]) by auto using tokens_single.
  cbn [omap list_omap fmap list_fmap join].
  by destruct (matched_name _ _ _).
Qed.

(** C1. Every reference is matched first-match-wins: its name when
    the name is selectable; otherwise the identifier the output-name
    index maps the name to, when that identifier is selectable;
    otherwise nothing, while the canonical string still lists the
    reference under its own name. With the index entry
    [TrainedName -> file123], [<lora:TrainedName:1>] against
    [["file123"]] gives [(["file123"], "TrainedName:1.0")]. *)
Theorem first_match_wins (h : host) (idx : index) :
  build_output_name_lookup h = Ok idx →
  (∀ (prompt : pystr) (refs : list raw_ref) (selectable : list pystr),
     tokens prompt refs →
     ∃ matched : list (list pystr),
       extract_loras_from_prompt h (PStr prompt) (Some selectable) =
         Ok (concat matched,
             join (py ",") ((λ r, format_ref (parsed_of r)) <$> refs))
       ∧ Forall2 (λ r m, policy selectable idx (strip (raw_name r)) m)
           refs matched
       ∧ Forall (λ r, ∃ tl, format_ref (parsed_of r) =
                           strip (raw_name r) ++ py ":" ++ tl) refs)
  ∧ (idx !! KStr (py "TrainedName") = Some (py "file123") →
     float_of_str (py "1") = Some float_one →
     format_float float_one = py "1.0" →
     extract_loras_from_prompt h (PStr (py "<lora:TrainedName:1>"))
       (Some [py "file123"]) =
       Ok ([py "file123"], py "TrainedName:1.0")).
Proof.
  intros Hb. split.
  - intros prompt refs sel Ht.
    exists ((λ r, option_list (matched_name sel idx (strip (raw_name r)))) <$> refs).
    split; [|split].
    + rewrite (extract_tokens _ idx _ refs) by done.
      by rewrite omap_concat.
    + apply Forall2_fmap_r, Forall2_same_length_lookup_2; [done|].
      intros i r r' Hr [= <-]%(eq_trans (eq_sym Hr)).
      apply matched_name_policy.
    + apply Forall_forall. intros r _. apply (format_ref_name (parsed_of r)).
  - intros Hk Hf Hfmt.
    change (py "<lora:TrainedName:1>") with
      (ref_text {| raw_name := py "TrainedName"; raw_weight := py "1";
                   raw_lbw := None |}).
    rewrite (extract_single _ idx) by (done || field_ok).
    unfold matched_name, parsed_of, format_ref, weight_of.
    cbn [raw_name raw_weight raw_lbw default fmap option_fmap option_map].
    rewrite Hf, Hfmt.
    replace (strip (py "TrainedName")) with (py "TrainedName") by by vm_compute.
    rewrite Hk. by vm_compute.
Qed.

(** C4. A weight that is not a number never makes parsing fail or
    drop the reference: the reference is produced with weight [1.0];
    [<lora:A:oops>] against [["A"]] gives [(["A"], "A:1.0")]. *)
Theorem unparsable_weight_is_one :
  (∀ (prompt : pystr) (refs : list raw_ref),
     tokens prompt refs →
     length (parse_lora_syntax prompt) = length refs
     ∧ ∀ (i : nat) (r : raw_ref),
         refs !! i = Some r → float_of_str (raw_weight r) = None →
         parse_lora_syntax prompt !! i =
           Some (strip (raw_name r), float_one, strip <$> raw_lbw r))
  ∧ (∀ (h : host) (idx : index),
       build_output_name_lookup h = Ok idx →
       float_of_str (py "oops") = None →
       format_float float_one = py "1.0" →
       extract_loras_from_prompt h (PStr (py "<lora:A:oops>")) (Some [py "A"]) =
         Ok ([py "A"], py "A:1.0")).
Proof.
  split.
  - intros prompt refs Ht. rewrite (parse_tokens _ _ Ht). split.
    + by rewrite length_fmap.
    + intros i r Hi Hw. rewrite list_lookup_fmap, Hi. cbn [fmap option_fmap option_map].
      unfold parsed_of, weight_of. by rewrite Hw.
  - intros h idx Hb Hf Hfmt.
    change (py "<lora:A:oops>") with
      (ref_text {| raw_name := py "A"; raw_weight := py "oops"; raw_lbw := None |}).
    rewrite (extract_single _ idx) by (done || field_ok).
    unfold matched_name, parsed_of, format_ref, weight_of.
    cbn [raw_name raw_weight raw_lbw default fmap option_fmap option_map].
    rewrite Hf, Hfmt. by vm_compute.
Qed.

(** C5. Matched list and canonical parts follow the references in
    their order in the prompt, repeated ones included;
    [<lora:A:1><lora:B:1><lora:A:1>] against [["A","B"]] gives
    [(["A","B","A"], "A:1.0,B:1.0,A:1.0")]. *)
Theorem order_is_preserved (h : host) (idx : index) :
  build_output_name_lookup h = Ok idx →
  (∀ (prompt : pystr) (refs : list raw_ref) (selectable : list pystr),
     tokens prompt refs →
     extract_loras_from_prompt h (PStr prompt) (Some selectable) =
       Ok (omap (λ r, matched_name selectable idx (strip (raw_name r))) refs,
           join (py ",") ((λ r, format_ref (parsed_of r)) <$> refs)))
  ∧ (float_of_str (py "1") = Some float_one →
     format_float float_one = py "1.0" →
     extract_loras_from_prompt h (PStr (py "<lora:A:1><lora:B:1><lora:A:1>"))
       (Some [py "A"; py "B"]) =
       Ok ([py "A"; py "B"; py "A"], py "A:1.0,B:1.0,A:1.0")).
Proof.
  intros Hb. split.
  - intros prompt refs sel Ht. by apply extract_tokens.
  - intros Hf Hfmt.
    pose (a := {| raw_name := py "A"; raw_weight := py "1"; raw_lbw := None |}).
    pose (b := {| raw_name := py "B"; raw_weight := py "1"; raw_lbw := None |}).
    rewrite (extract_tokens _ idx _ [a; b; a]); [|done|].
    + unfold matched_name, parsed_of, format_ref, weight_of.
      cbn [omap list_omap fmap list_fmap a b raw_name raw_weight raw_lbw default
           option_fmap option_map].
      rewrite Hf, Hfmt. by vm_compute.
    + change (py "<lora:A:1><lora:B:1><lora:A:1>") with
        (ref_text a ++ ref_text b ++ ref_text a ++ []).
      repeat (constructor; [by field_ok|]). constructor.
Qed.

(** An empty prompt, [None] or a value that is not a string gives
    [([], "")] on every host; so does a prompt in which no reference
    occurs, on a host where the index build returns. *)
Lemma nothing_to_resolve (h : host) (selectable : option (list pystr)) :
  (∀ prompt : pyval,
     truthy prompt = false ∨ (∀ s, prompt ≠ PStr s) →
     extract_loras_from_prompt h prompt selectable = Ok ([], []))
  ∧ (∀ (idx : index) (prompt : pystr),
       build_output_name_lookup h = Ok idx →
       no_refs prompt →
       extract_loras_from_prompt h (PStr prompt) selectable = Ok ([], [])).
Proof.
  split.
  - intros prompt [Hfalse|Hstr].
    + destruct prompt as [| | |s| |]; try done. by destruct s.
    + destruct prompt as [| | |s| |]; try done. by destruct (Hstr s).
  - intros idx prompt Hb Hno.
    by rewrite (extract_tokens _ idx _ []) by auto using tokens_no_refs.
Qed.

Lemma drop_while_nil_Forall {A} (p : A → bool) (l : list A) :
  drop_while p l = [] → Forall (λ x, p x = true) l.
Proof.
  induction l as [|x l IH]; simpl; [constructor|].
  destruct (p x) eqn:E; [|done]. intros Hl. constructor; auto.
Qed.

Lemma strip_nil_blank (t : pystr) : strip t = [] → blank t.
Proof.
  unfold strip, rstrip, lstrip, blank. intros Hs.
  apply (f_equal reverse) in Hs. rewrite reverse_involutive in Hs.
  apply drop_while_nil_Forall in Hs. rewrite Forall_reverse in Hs.
  destruct (drop_while is_space t) as [|c t'] eqn:Ed.
  - by apply drop_while_nil_Forall.
  - apply drop_while_head in Ed. apply Forall_cons in Hs as [Hc _]. congruence.
Qed.

(** C9. Names are compared exactly at both stages: an entry of the
    selectable list, or a key of the index, that differs from a
    reference's name only in letter case does not make it match; the
    reference is in the canonical string and adds nothing to the
    matched list. *)
Theorem matching_is_case_sensitive (h : host) (idx : index) (prompt : pystr)
    (before after : list raw_ref) (r : raw_ref) (selectable : list pystr)
    (e : pystr) :
  build_output_name_lookup h = Ok idx →
  tokens prompt (before ++ r :: after) →
  str_lower e = str_lower (strip (raw_name r)) →
  e ≠ strip (raw_name r) →
  e ∈ selectable ∨ is_Some (idx !! KStr e) →
  strip (raw_name r) ∉ selectable →
  idx !! KStr (strip (raw_name r)) = None →
  extract_loras_from_prompt h (PStr prompt) (Some selectable) =
    Ok (omap (λ r, matched_name selectable idx (strip (raw_name r))) before ++
        omap (λ r, matched_name selectable idx (strip (raw_name r))) after,
        join (py ",")
          (((λ r, format_ref (parsed_of r)) <$> before) ++
           format_ref (parsed_of r) ::
           ((λ r, format_ref (parsed_of r)) <$> after))).
Proof.
  intros Hb Ht _ _ _ Hsel Hidx.
  rewrite (extract_tokens _ idx _ _ _ Hb Ht). cbn [default].
  rewrite omap_app, fmap_app. cbn [omap list_omap fmap list_fmap].
  unfold matched_name at 2. rewrite bool_decide_eq_false_2 by done.
  by rewrite Hidx.
Qed.

(** The code renders a reference in the canonical form of the
    specification unless its third field is the empty string. *)
Lemma format_ref_canonical (r : lora_ref) :
  r.2 ≠ Some [] → format_ref r = canonical r.
Proof.
  destruct r as [[name weight] [[|c l]|]]; by cbn.
Qed.

(** C10. A third field of whitespace only counts as no third field:
    the reference is rendered [name:weight], like the reference
    written with two fields. *)
Theorem blank_lbw_is_dropped (h : host) (idx : index) (n w t : pystr)
    (selectable : option (list pystr)) :
  build_output_name_lookup h = Ok idx →
  is_field n → is_field w → t ≠ [] → blank t →
  format_ref (parsed_of {| raw_name := n; raw_weight := w; raw_lbw := Some t |}) =
    strip n ++ py ":" ++ format_float (weight_of w)
  ∧ extract_loras_from_prompt h
      (PStr (ref_text {| raw_name := n; raw_weight := w; raw_lbw := Some t |}))
      selectable =
    extract_loras_from_prompt h
      (PStr (ref_text {| raw_name := n; raw_weight := w; raw_lbw := None |}))
      selectable
  ∧ ∃ matched,
      extract_loras_from_prompt h
        (PStr (ref_text {| raw_name := n; raw_weight := w; raw_lbw := Some t |}))
        selectable =
      Ok (matched, strip n ++ py ":" ++ format_float (weight_of w)).
Proof.
  intros Hb Hn Hw Ht0 Ht.
  assert (Hfmt : format_ref (parsed_of
      {| raw_name := n; raw_weight := w; raw_lbw := Some t |}) =
      strip n ++ py ":" ++ format_float (weight_of w)).
  { unfold parsed_of, format_ref.
    cbn [raw_name raw_weight raw_lbw fmap option_fmap option_map].
    by rewrite strip_blank. }
  assert (H3 : well_formed {| raw_name := n; raw_weight := w; raw_lbw := Some t |}).
  { split; [done|]. split; [done|]. intros ? [= <-]. split; [done|].
    by apply blank_no_gt. }
  assert (H2 : well_formed {| raw_name := n; raw_weight := w; raw_lbw := None |}).
  { split; [done|]. split; [done|]. by intros ? [=]. }
  split; [done|].
  rewrite !(extract_single _ idx) by done. rewrite Hfmt. split; [done|].
  by eexists.
Qed.

(** C8, as amended. The third field reaches the canonical string with
    the whitespace around it removed and otherwise as written,
    provided something is left; a field written without surrounding
    whitespace is carried through as it is. [<lora:A:1:0,0,1,1>] gives
    the canonical part [A:1.0:0,0,1,1]. *)
Theorem lbw_carried_trimmed (h : host) (idx : index)
    (selectable : option (list pystr)) :
  build_output_name_lookup h = Ok idx →
  (∀ (r : raw_ref) (t : pystr),
     well_formed r → raw_lbw r = Some t → ¬ blank t →
     (∃ matched,
        extract_loras_from_prompt h (PStr (ref_text r)) selectable =
          Ok (matched,
              strip (raw_name r) ++ py ":" ++
              format_float (weight_of (raw_weight r)) ++ py ":" ++ strip t))
     ∧ (unpadded t → strip t = t))
  ∧ (float_of_str (py "1") = Some float_one →
     format_float float_one = py "1.0" →
     ∃ matched,
       extract_loras_from_prompt h (PStr (py "<lora:A:1:0,0,1,1>")) selectable =
         Ok (matched, py "A:1.0:0,0,1,1")).
Proof.
  intros Hb.
  assert (Hgen : ∀ (r : raw_ref) (t : pystr),
     well_formed r → raw_lbw r = Some t → ¬ blank t →
     ∃ matched,
        extract_loras_from_prompt h (PStr (ref_text r)) selectable =
          Ok (matched,
              strip (raw_name r) ++ py ":" ++
              format_float (weight_of (raw_weight r)) ++ py ":" ++ strip t)).
  { intros r t Hr Hl Hnb. rewrite (extract_single _ idx) by done.
    eexists. f_equal. f_equal. unfold parsed_of, format_ref. rewrite Hl.
    cbn [fmap option_fmap option_map].
    destruct (strip t) eqn:Hs; [|done]. destruct Hnb. by apply strip_nil_blank. }
  split.
  - intros r t Hr Hl Hnb. split; [by apply Hgen|]. apply strip_unpadded.
  - intros Hf Hfmt.
    change (py "<lora:A:1:0,0,1,1>") with
      (ref_text {| raw_name := py "A"; raw_weight := py "1";
                   raw_lbw := Some (py "0,0,1,1") |}).
    destruct (Hgen {| raw_name := py "A"; raw_weight := py "1";
                      raw_lbw := Some (py "0,0,1,1") |} (py "0,0,1,1"))
      as [matched Hm]; [by field_ok|done| |].
    { intros Hbl. apply Forall_cons in Hbl as [Hc _]. by vm_compute in Hc. }
    exists matched. rewrite Hm. unfold weight_of. cbn [raw_name raw_weight].
    rewrite Hf, Hfmt. by vm_compute.
Qed.

(** ** The index builder *)

(** The registry source filters its entries: no key is its own
    identifier, none lower-cases to [merged]. *)
Lemma registry_entry_filtered (lookup : index) (name : pystr) (obj : lora_obj) :
  map_Forall (λ k v, ∃ s, k = KStr s ∧ s ≠ v ∧ str_lower s ≠ py "merged") lookup →
  map_Forall (λ k v, ∃ s, k = KStr s ∧ s ≠ v ∧ str_lower s ≠ py "merged")
    (try_pass lookup (registry_entry lookup name obj)).
Proof.
  intros Hinv. unfold registry_entry.
  destruct (metadata obj) as [md|]; [|done].
  destruct (truthy md); [|done].
  destruct (py_get md (py "ss_output_name") (PStr [])) as [ss|]; [|done].
  cbn [mbind result_bind].
  destruct (truthy ss && negb (py_eq_str ss name)) eqn:Hc; [|done].
  apply andb_prop in Hc as [_ Hne]. apply negb_true_iff in Hne.
  destruct ss as [| | |s| |]; try done.
  cbn [py_lower mbind result_bind]. case_bool_decide as Hm; [done|].
  cbn [negb setitem py_hash mbind result_bind try_pass].
  apply map_Forall_insert_2; [|done].
  exists s. split; [done|]. split; [|done].
  cbn [py_eq_str] in Hne. by apply bool_decide_eq_false in Hne.
Qed.

Lemma registry_index_filtered (h : host) (entries : list (pystr * lora_obj)) :
  available_loras h = Some entries →
  ∃ idx, build_output_name_lookup h = Ok idx ∧
    map_Forall (λ k v, ∃ s, k = KStr s ∧ s ≠ v ∧ str_lower s ≠ py "merged") idx.
Proof.
  intros Hreg. unfold build_output_name_lookup. rewrite Hreg.
  eexists. split; [done|]. unfold registry_loop. clear Hreg.
  generalize (map_Forall_empty (M := gmap pykey) (A := pystr)
    (λ k v, ∃ s, k = KStr s ∧ s ≠ v ∧ str_lower s ≠ py "merged")).
  generalize (∅ : index).
  induction entries as [|[name obj] entries IH]; intros lookup Hinv; [done|].
  cbn [foldl]. apply IH. by apply registry_entry_filtered.
Qed.

(** A file that cannot be read or decoded is stepped over. *)
Lemma unreadable_file_skipped (lookup : index) (f : st_file) :
  header f = None → scan_file lookup f = Ok lookup.
Proof. intros Hf. unfold scan_file, load_lora_metadata. by rewrite Hf. Qed.

Lemma unreadable_file_between_good :
  build_output_name_lookup unreadable_dir =
    Ok (<[KStr (py "TrainedC") := py "c"]> (<[KStr (py "TrainedA") := py "a"]> ∅)).
Proof. reflexivity. Qed.

(** Files with well-typed metadata never make the scan raise. *)
Lemma scan_file_digestible (lookup : index) (f : st_file) :
  digestible f → ∃ lookup', scan_file lookup f = Ok lookup'.
Proof.
  unfold digestible, scan_file.
  destruct (load_lora_metadata f) as [| | | | |kvs]; try (intros ->; by eexists).
  intros Hf. destruct (truthy (PDict kvs)); [|by eexists].
  cbn [py_get mbind result_bind].
  destruct (assoc (py "ss_output_name") kvs) as [[| | | | |]|];
    cbn [default]; try done;
    match goal with |- context [truthy ?v] => destruct (truthy v) end;
    by eexists.
Qed.

Lemma scan_files_digestible (files : list st_file) (lookup : index) :
  Forall digestible files → ∃ idx, scan_files files lookup = Ok idx.
Proof.
  intros Hf. revert lookup.
  induction Hf as [|f files Hd _ IH]; intros lookup; [by eexists|].
  cbn [scan_files]. destruct (scan_file_digestible lookup f Hd) as [l' ->].
  cbn [mbind result_bind]. apply IH.
Qed.

(** The build returns on every host whose LoRA directory, when it is
    scanned, holds digestible files only. *)
Lemma build_returns (h : host) :
  (∀ dir files,
     available_loras h = None →
     get_lora_directory h = Some dir →
     glob_safetensors h dir = Some files →
     Forall digestible files) →
  ∃ idx, build_output_name_lookup h = Ok idx.
Proof.
  intros Hfiles. unfold build_output_name_lookup.
  destruct (available_loras h) as [entries|]; [by eexists|].
  destruct (get_lora_directory h) as [dir|] eqn:Hd; [|by eexists].
  destruct (glob_safetensors h dir) as [files|] eqn:Hg; [|by eexists].
  apply scan_files_digestible. by eapply Hfiles.
Qed.

(** An unhashable [ss_output_name] escapes as [TypeError]. *)
Lemma list_valued_name_raises :
  build_output_name_lookup list_named_dir = Raise TypeError.
Proof. reflexivity. Qed.

(** What the build raises reaches the caller of the resolver. *)
Lemma extract_propagates (h : host) (e : exn) (prompt : pystr)
    (selectable : option (list pystr)) :
  prompt ≠ [] →
  build_output_name_lookup h = Raise e →
  extract_loras_from_prompt h (PStr prompt) selectable = Raise e.
Proof.
  intros Hp Hb. unfold extract_loras_from_prompt.
  destruct prompt as [|c prompt]; [done|].
  cbn [str_truthy negb]. by rewrite Hb.
Qed.

(** C6. A prompt in which no reference occurs does not always give
    [([], "")]: being a non-empty string it goes through the index
    build, and with a file whose [__metadata__] is not an object in the
    LoRA directory the call raises. *)
Theorem reference_free_prompt_raises (selectable : option (list pystr)) :
  no_refs (py "no references here")
  ∧ extract_loras_from_prompt corrupt_dir (PStr (py "no references here"))
      selectable = Raise AttributeError.
Proof.
  split.
  - apply no_refs_b_true. by vm_compute.
  - by apply extract_propagates.
Qed.

(** C2. The scan of the LoRA directory does not filter: a file
    trained under its own name is indexed to itself, and [merged] is
    kept as a key. *)
Theorem fs_scan_is_unfiltered :
  build_output_name_lookup unfiltered_dir =
    Ok (<[KStr (py "merged") := py "x"]> (<[KStr (py "foo") := py "foo"]> ∅)).
Proof. reflexivity. Qed.

(** C3. A file whose [__metadata__] is not an object makes the scan
    raise, although the files around it are good. *)
Theorem corrupt_metadata_raises :
  build_output_name_lookup corrupt_dir = Raise AttributeError.
Proof. reflexivity. Qed.

End Claims.

(** ** The theorems at work on the reference instance *)

Lemma first_match_wins_witness :
  @build_output_name_lookup RefPy.builtins trained_registry =
    Ok {[ KStr (py "TrainedName") := py "file123" ]}
  ∧ @extract_loras_from_prompt RefPy.builtins trained_registry
      (PStr (py "<lora:TrainedName:1>")) (Some [py "file123"]) =
    Ok ([py "file123"], py "TrainedName:1.0").
Proof.
  split; [reflexivity|].
  apply (proj2 (@first_match_wins RefPy.builtins trained_registry _ eq_refl));
    reflexivity.
Defined.

Lemma unparsable_weight_is_one_witness :
  @extract_loras_from_prompt RefPy.builtins standalone
    (PStr (py "<lora:A:oops>")) (Some [py "A"]) =
  Ok ([py "A"], py "A:1.0").
Proof.
  apply (proj2 (@unparsable_weight_is_one RefPy.builtins) standalone ∅);
    reflexivity.
Defined.

Lemma order_is_preserved_witness :
  @extract_loras_from_prompt RefPy.builtins standalone
    (PStr (py "<lora:A:1><lora:B:1><lora:A:1>")) (Some [py "A"; py "B"]) =
  Ok ([py "A"; py "B"; py "A"], py "A:1.0,B:1.0,A:1.0").
Proof.
  apply (proj2 (@order_is_preserved RefPy.builtins standalone ∅ eq_refl));
    reflexivity.
Defined.

Lemma nothing_to_resolve_witness :
  @extract_loras_from_prompt RefPy.builtins standalone PNone None = Ok ([], [])
  ∧ @extract_loras_from_prompt RefPy.builtins standalone (PInt 7) (Some [py "A"]) =
      Ok ([], [])
  ∧ @extract_loras_from_prompt RefPy.builtins standalone
      (PStr (py "a cat, <lora:broken> and <lora::1>")) (Some [py "A"]) =
      Ok ([], []).
Proof.
  split; [|split].
  - apply (proj1 (@nothing_to_resolve RefPy.builtins standalone None)).
    left. reflexivity.
  - apply (proj1 (@nothing_to_resolve RefPy.builtins standalone (Some [py "A"]))).
    right. intros s. discriminate.
  - apply (proj2 (@nothing_to_resolve RefPy.builtins standalone (Some [py "A"])) ∅).
    + reflexivity.
    + apply no_refs_b_true. vm_compute. reflexivity.
Defined.

Lemma matching_is_case_sensitive_witness :
  @extract_loras_from_prompt RefPy.builtins standalone
    (PStr (py "<lora:a:1>")) (Some [py "A"]) =
  Ok ([], py "a:1.0").
Proof.
  apply (@matching_is_case_sensitive RefPy.builtins standalone ∅
           (py "<lora:a:1>") [] []
           {| raw_name := py "a"; raw_weight := py "1"; raw_lbw := None |}
           [py "A"] (py "A")).
  - reflexivity.
  - apply (tokens_single
             {| raw_name := py "a"; raw_weight := py "1"; raw_lbw := None |}).
    field_ok.
  - reflexivity.
  - vm_compute. discriminate.
  - left. apply (bool_decide_unpack _). vm_compute. exact I.
  - apply (bool_decide_unpack _). vm_compute. exact I.
  - reflexivity.
Defined.

Lemma blank_lbw_is_dropped_witness :
  @extract_loras_from_prompt RefPy.builtins standalone
    (PStr (py "<lora:A:1: >")) (Some [py "A"]) =
  @extract_loras_from_prompt RefPy.builtins standalone
    (PStr (py "<lora:A:1>")) (Some [py "A"])
  ∧ ∃ matched,
      @extract_loras_from_prompt RefPy.builtins standalone
        (PStr (py "<lora:A:1: >")) (Some [py "A"]) =
      Ok (matched, py "A:1.0").
Proof.
  apply (@blank_lbw_is_dropped RefPy.builtins standalone ∅
           (py "A") (py "1") (py " ") (Some [py "A"])).
  - reflexivity.
  - field_ok.
  - field_ok.
  - vm_compute. discriminate.
  - repeat constructor.
Defined.

Lemma lbw_carried_trimmed_witness :
  (∃ matched,
     @extract_loras_from_prompt RefPy.builtins standalone
       (PStr (py "<lora:A:1: 0,0,1,1 >")) None =
     Ok (matched, py "A:1.0:0,0,1,1"))
  ∧ (∃ matched,
     @extract_loras_from_prompt RefPy.builtins standalone
       (PStr (py "<lora:A:1:0,0,1,1>")) None =
     Ok (matched, py "A:1.0:0,0,1,1")).
Proof.
  split.
  - apply (proj1 (@lbw_carried_trimmed RefPy.builtins standalone ∅ None eq_refl)
             {| raw_name := py "A"; raw_weight := py "1";
                raw_lbw := Some (py " 0,0,1,1 ") |} (py " 0,0,1,1 ")).
    + field_ok.
    + reflexivity.
    + intros Hb. apply Forall_cons in Hb as [_ Hb].
      apply Forall_cons in Hb as [Hc _]. vm_compute in Hc. discriminate.
  - apply (proj2 (@lbw_carried_trimmed RefPy.builtins standalone ∅ None eq_refl));
      reflexivity.
Defined.

(** C8, as stated, fails on a padded field: the canonical string has
    the field without its blanks. *)
Lemma lbw_not_verbatim :
  @extract_loras_from_prompt RefPy.builtins standalone
    (PStr (py "<lora:A:1: 0,0,1,1 >")) None =
    Ok ([], py "A:1.0:0,0,1,1")
  ∧ ¬ lbw_carried_verbatim.
Proof.
  split; [reflexivity|]. intros Hclaim.
  destruct (Hclaim RefPy.builtins standalone ∅
              {| raw_name := py "A"; raw_weight := py "1";
                 raw_lbw := Some (py " 0,0,1,1 ") |}
              (py " 0,0,1,1 ") None) as [matched Hm];
    [reflexivity|field_ok|reflexivity|].
  vm_compute in Hm. discriminate.
Qed.

(** * Further properties of the prompt utilities *)

(** ** What [strip] leaves *)

Lemma drop_while_elem_of {A} (p : A → bool) (l : list A) (x : A) :
  x ∈ drop_while p l → x ∈ l.
Proof.
  induction l as [|y l IH]; simpl; [done|].
  destruct (p y); [|done]. intros Hx. right. by apply IH.
Qed.

Lemma strip_elem_of (s : pystr) (c : N) : c ∈ strip s → c ∈ s.
Proof.
  unfold strip, rstrip, lstrip. rewrite elem_of_reverse.
  intros Hc%drop_while_elem_of. rewrite elem_of_reverse in Hc.
  by apply drop_while_elem_of in Hc.
Qed.

Lemma drop_while_head_not {A} (p : A → bool) (l : list A) (x : A) :
  head (drop_while p l) = Some x → p x = false.
Proof.
  destruct (drop_while p l) as [|y l'] eqn:E; [done|].
  intros [= ->]. by eapply drop_while_head.
Qed.

Lemma head_drop_while_reverse {A} (p : A → bool) (l : list A) (x : A) :
  (∀ y, head l = Some y → p y = false) →
  head (reverse (drop_while p (reverse l))) = Some x → p x = false.
Proof.
  intros Hl. destruct l as [|y l]; [done|].
  destruct (drop_while p (reverse (y :: l))) as [|z t] eqn:E.
  - done.
  - assert (Hy : ∃ t', reverse (z :: t) = y :: t').
    { pose proof (take_drop_while p (reverse (y :: l))) as Htd. rewrite E in Htd.
      apply (f_equal reverse) in Htd.
      rewrite reverse_app, reverse_involutive in Htd.
      destruct (reverse (z :: t)) as [|u t'] eqn:Er.
      - apply (f_equal reverse) in Er. by rewrite reverse_involutive in Er.
      - injection Htd as -> _. by eexists. }
    destruct Hy as [t' ->]. intros [= <-]. by apply Hl.
Qed.

Lemma strip_unpadded_result (s : pystr) : unpadded (strip s).
Proof.
  intros c [Hc|Hc].
  - unfold strip, rstrip in Hc.
    eapply head_drop_while_reverse; [|done].
    intros y. apply drop_while_head_not.
  - unfold strip, rstrip in Hc. rewrite last_reverse in Hc.
    by eapply drop_while_head_not.
Qed.

Lemma strip_idemp (s : pystr) : strip (strip s) = strip s.
Proof. apply strip_unpadded, strip_unpadded_result. Qed.

Lemma strip_margins (s : pystr) :
  ∃ left right, blank left ∧ blank right ∧ s = left ++ strip s ++ right.
Proof.
  exists (take_while is_space s),
         (reverse (take_while is_space (reverse (lstrip s)))).
  split; [apply take_while_Forall|]. split.
  - apply Forall_reverse, take_while_Forall.
  - unfold strip, rstrip. rewrite <- reverse_app, take_drop_while.
    rewrite reverse_involutive. unfold lstrip. by rewrite take_drop_while.
Qed.

Lemma strip_is_trim (s : pystr) : is_trim_of s (strip s).
Proof. split; [apply strip_unpadded_result|apply strip_margins]. Qed.

Section ParserClaim.
Context `{PyBuiltins}.

(** C7. The parser extracts exactly the references of the prompt:
    the texts from [<lora:] to [>] with a name and a weight free of
    [:] and [>] and, optionally, a third field free of [>] (fields
    being non-empty), taken left to right without overlap. The name
    and the third field come back trimmed: without the whitespace
    that surrounds them in the prompt, and with nothing else
    removed. *)
Theorem parser_extracts_references (prompt : pystr) :
  ∃ refs : list raw_ref,
    tokens prompt refs
    ∧ (∀ refs', tokens prompt refs' → refs' = refs)
    ∧ Forall well_formed refs
    ∧ (∃ (gaps : list pystr) (tail : pystr),
         length gaps = length refs ∧ prompt = weave (zip gaps refs) tail)
    ∧ parse_lora_syntax prompt =
        (λ r, (strip (raw_name r), weight_of (raw_weight r),
               strip <$> raw_lbw r)) <$> refs
    ∧ Forall2 (λ (r : raw_ref) (p : lora_ref),
                 is_trim_of (raw_name r) p.1.1
                 ∧ p.1.2 = weight_of (raw_weight r)
                 ∧ option_Forall2 is_trim_of (raw_lbw r) p.2)
        refs (parse_lora_syntax prompt).
Proof.
  destruct (tokens_total prompt) as [refs Ht]. exists refs.
  split; [done|]. split; [|split; [|split; [|split]]].
  - intros refs' Ht'. by apply (tokens_functional prompt).
  - by eapply tokens_well_formed.
  - by apply tokens_weave.
  - by apply parse_tokens.
  - rewrite (parse_tokens _ _ Ht). apply Forall2_fmap_r, Forall_Forall2_diag.
    apply Forall_forall. intros r _. unfold parsed_of. cbn [fst snd].
    split; [apply strip_is_trim|]. split; [done|].
    destruct (raw_lbw r) as [t|]; constructor. apply strip_is_trim.
Qed.

End ParserClaim.

(** ** The parser, beyond the claims *)

Lemma not_open_no_ref (c : N) (s : pystr) : c ≠ open_angle → ¬ starts_ref (c :: s).
Proof.
  intros Hc. rewrite starts_ref_scan. unfold scan_ref.
  change (py "<lora:") with (open_angle :: py "lora:"). cbn [Re.strip_prefix].
  rewrite (proj2 (N.eqb_neq _ _)) by done. by intros [].
Qed.

Lemma finditer_gap (gap s : pystr) :
  open_angle ∉ gap →
  Re.finditer pattern (gap ++ s) = Re.finditer pattern s.
Proof.
  induction gap as [|c gap IH]; intros Hgap; [done|].
  apply not_elem_of_cons in Hgap as [Hc Hgap].
  cbn [app]. rewrite finditer_no_match; [by apply IH|].
  by apply match_at_None, not_open_no_ref.
Qed.

Lemma omap_length_le {A B} (f : A → option B) (l : list A) :
  (length (omap f l) ≤ length l)%nat.
Proof.
  induction l as [|x l IH]; [done|]. cbn [omap list_omap].
  destruct (f x); cbn [length]; lia.
Qed.

Section Extras.
Context `{PyBuiltins}.

Lemma parse_elem_of (prompt : pystr) (x : lora_ref) :
  x ∈ parse_lora_syntax prompt →
  ∃ r, well_formed r ∧ x = parsed_of r.
Proof.
  destruct (tokens_total prompt) as [refs Ht].
  rewrite (parse_tokens _ _ Ht). intros (r & -> & Hr)%list_elem_of_fmap.
  exists r. split; [|done].
  apply tokens_well_formed in Ht. rewrite Forall_forall in Ht. by apply Ht.
Qed.

Lemma parsed_fields_are_clean_aux (prompt : pystr) (name : pystr)
    (weight : pyfloat) (lbw : option pystr) :
  (name, weight, lbw) ∈ parse_lora_syntax prompt →
  unpadded name ∧ (colon ∉ name) ∧ (gt ∉ name)
  ∧ ∀ l, lbw = Some l → unpadded l ∧ (gt ∉ l).
Proof.
  intros (r & (Hn & _ & Hl) & [= -> _ ->])%parse_elem_of.
  destruct Hn as (_ & Hc & Hg).
  split; [apply strip_unpadded_result|].
  split; [by intros ?%strip_elem_of|].
  split; [by intros ?%strip_elem_of|].
  intros l Hlbw. destruct (raw_lbw r) as [t|]; [|done].
  injection Hlbw as <-. destruct (Hl t eq_refl) as [_ Ht].
  split; [apply strip_unpadded_result|by intros ?%strip_elem_of].
Qed.

(** X1. What the parser returns is clean: a name has no whitespace at
    either end and no [:] or [>] in it; a third field has no
    whitespace at either end and no [>]. *)
Theorem parsed_fields_are_clean (prompt : pystr) (name : pystr)
    (weight : pyfloat) (lbw : option pystr) :
  (name, weight, lbw) ∈ parse_lora_syntax prompt →
  unpadded name ∧ (colon ∉ name) ∧ (gt ∉ name)
  ∧ ∀ l, lbw = Some l → unpadded l ∧ (gt ∉ l).
Proof. apply parsed_fields_are_clean_aux. Qed.

(** X2. Text without [<] in front of a reference changes nothing: the
    reference is parsed and parsing goes on after its [>]. *)
Theorem text_before_reference_is_skipped (gap : pystr) (r : raw_ref)
    (rest : pystr) :
  open_angle ∉ gap → well_formed r →
  parse_lora_syntax (gap ++ ref_text r ++ rest) =
    parsed_of r :: parse_lora_syntax rest.
Proof.
  intros Hgap Hr. unfold parse_lora_syntax.
  rewrite finditer_gap by done.
  rewrite (finditer_match _ _ _ (groups_of r));
    [|apply ref_text_nonempty|by apply match_at_ref].
  cbn [fmap list_fmap]. by rewrite ref_of_match_groups.
Qed.

(** X3. The canonical part of a parsed reference, put back between
    [<lora:] and [>], parses to the same reference, when the name is
    not empty, the third field is not the empty string, and the
    weight survives printing and reading. *)
Theorem canonical_round_trip (prompt : pystr) (name : pystr)
    (weight : pyfloat) (lbw : option pystr) :
  (name, weight, lbw) ∈ parse_lora_syntax prompt →
  name ≠ [] → lbw ≠ Some [] →
  float_of_str (format_float weight) = Some weight →
  is_field (format_float weight) →
  parse_lora_syntax (py "<lora:" ++ format_ref (name, weight, lbw) ++ py ">") =
    [(name, weight, lbw)].
Proof.
  intros Hin Hname Hlbw Hrt Hw.
  destruct (parsed_fields_are_clean_aux prompt name weight lbw Hin)
    as (Hun & Hc & Hg & Hl).
  pose (r := {| raw_name := name; raw_weight := format_float weight;
                raw_lbw := lbw |}).
  assert (Hr : well_formed r).
  { split; [done|]. split; [done|]. cbn [raw_lbw r]. intros t ->.
    split; [congruence|]. by apply Hl. }
  replace (py "<lora:" ++ format_ref (name, weight, lbw) ++ py ">")
    with (ref_text r ++ []).
  - rewrite (parse_tokens _ [r]) by (constructor; [done|constructor]).
    cbn [fmap list_fmap]. unfold parsed_of, weight_of. cbn [raw_name raw_weight raw_lbw r].
    rewrite Hrt, (strip_unpadded name) by done.
    destruct lbw as [l|]; [|done]. cbn [fmap option_fmap option_map].
    by rewrite (strip_unpadded l) by by apply Hl.
  - rewrite app_nil_r. unfold ref_text, format_ref. cbn [raw_name raw_weight raw_lbw r].
    destruct lbw as [[|c l]|]; [done| |].
    + cbn [str_truthy]. by rewrite <- !app_assoc.
    + by rewrite <- !app_assoc.
Qed.

(** ** The resolver, beyond the claims *)

Lemma extract_inv (h : host) (prompt : pystr) (selectable : option (list pystr))
    (matched : list pystr) (canon : pystr) :
  extract_loras_from_prompt h (PStr prompt) selectable = Ok (matched, canon) →
  ∃ idx : index,
    (prompt ≠ [] → build_output_name_lookup h = Ok idx)
    ∧ matched = omap (λ r : lora_ref,
                        matched_name (default [] selectable) idx r.1.1)
                  (parse_lora_syntax prompt)
    ∧ canon = join (py ",") (format_ref <$> parse_lora_syntax prompt).
Proof.
  destruct prompt as [|c prompt].
  - intros [= <- <-]. by exists ∅.
  - intros He. destruct (build_output_name_lookup h) as [idx|e] eqn:Hb.
    + rewrite (extract_spec _ idx) in He by done. injection He as <- <-.
      by exists idx.
    + by rewrite (extract_propagates h e) in He.
Qed.

Lemma matched_name_selectable (sel : list pystr) (idx : index) (name m : pystr) :
  matched_name sel idx name = Some m → m ∈ sel.
Proof.
  unfold matched_name. case_bool_decide; [by intros [= <-]|].
  destruct (idx !! KStr name); [|done].
  case_bool_decide; [by intros [= <-]|done].
Qed.

(** X4. Whatever the prompt, the host and the index, every name the
    resolver returns is an element of the selectable list, and there
    are no more of them than references in the prompt. *)
Theorem matched_are_selectable (h : host) (prompt : pyval)
    (selectable : option (list pystr)) (matched : list pystr) (canon : pystr) :
  extract_loras_from_prompt h prompt selectable = Ok (matched, canon) →
  (∀ m, m ∈ matched → m ∈ default [] selectable)
  ∧ ∀ p, prompt = PStr p →
      (length matched ≤ length (parse_lora_syntax p))%nat.
Proof.
  intros He.
  destruct prompt as [| | |p| |];
    try (injection He as <- <-; split; [by intros m ?%elem_of_nil|done]).
  apply extract_inv in He as (idx & _ & -> & _). split.
  - intros m (r & _ & Hm)%list_elem_of_omap. by eapply matched_name_selectable.
  - intros ? [= <-]. apply omap_length_le.
Qed.

(** X5. The canonical string is a function of the prompt alone:
    neither the selectable list nor the host changes it. *)
Theorem canonical_depends_on_prompt_only (h h' : host) (prompt : pystr)
    (selectable selectable' : option (list pystr))
    (matched matched' : list pystr) (canon canon' : pystr) :
  extract_loras_from_prompt h (PStr prompt) selectable = Ok (matched, canon) →
  extract_loras_from_prompt h' (PStr prompt) selectable' = Ok (matched', canon') →
  canon = canon'.
Proof.
  intros (_ & _ & _ & ->)%extract_inv (_ & _ & _ & ->)%extract_inv. done.
Qed.

(** X6. When every name in the prompt is selectable, the matched
    list is the list of the names in prompt order, and the index plays
    no part. *)
Theorem direct_names_shadow_the_index (h : host) (idx : index)
    (prompt : pystr) (selectable : list pystr) :
  build_output_name_lookup h = Ok idx →
  (∀ r : lora_ref, r ∈ parse_lora_syntax prompt → r.1.1 ∈ selectable) →
  ∃ canon,
    extract_loras_from_prompt h (PStr prompt) (Some selectable) =
      Ok ((λ r : lora_ref, r.1.1) <$> parse_lora_syntax prompt, canon).
Proof.
  intros Hb Hall. rewrite (extract_spec _ idx) by done. eexists. f_equal. f_equal.
  cbn [default]. induction (parse_lora_syntax prompt) as [|r l IH]; [done|].
  cbn [omap list_omap fmap list_fmap]. unfold matched_name at 1.
  rewrite bool_decide_eq_true_2 by (apply Hall; by left).
  f_equal. apply IH. intros r' Hr'. apply Hall. by right.
Qed.

(** X7. Without a registry and without a LoRA directory to scan, the
    index is empty and the resolver matches by name only: the matched
    list is the names of the prompt that are selectable, in order. *)
Theorem standalone_matches_by_name (h : host) (prompt : pystr)
    (selectable : list pystr) :
  available_loras h = None →
  (∀ dir, get_lora_directory h = Some dir → glob_safetensors h dir = None) →
  build_output_name_lookup h = Ok ∅
  ∧ ∃ canon,
      extract_loras_from_prompt h (PStr prompt) (Some selectable) =
        Ok (filter (λ name, name ∈ selectable)
              ((λ r : lora_ref, r.1.1) <$> parse_lora_syntax prompt), canon).
Proof.
  intros Hreg Hdir.
  assert (Hb : build_output_name_lookup h = Ok ∅).
  { unfold build_output_name_lookup. rewrite Hreg.
    destruct (get_lora_directory h) as [dir|]; [|done].
    by rewrite (Hdir dir). }
  split; [done|]. rewrite (extract_spec _ ∅) by done. eexists. f_equal. f_equal.
  cbn [default]. induction (parse_lora_syntax prompt) as [|r l IH]; [done|].
  cbn [omap list_omap fmap list_fmap]. rewrite filter_cons.
  unfold matched_name at 1. rewrite lookup_empty.
  case_bool_decide; rewrite decide_bool_decide;
    [rewrite bool_decide_eq_true_2 by done|rewrite bool_decide_eq_false_2 by done];
    by rewrite IH.
Qed.

(** ** The index, beyond the claims *)

(** What one entry, or one file, adds does not depend on what is
    already indexed: it is laid over it. *)
Lemma setitem_union (lookup : index) (k : pyval) (v : pystr) :
  setitem lookup k v = c ← setitem ∅ k v; Ok (c ∪ lookup).
Proof.
  unfold setitem. destruct (py_hash k) as [hk|]; [|done].
  cbn [mbind result_bind]. by rewrite <- insert_union_l, (left_id ∅ (∪)).
Qed.

Lemma setitem_single (k : pyval) (v : pystr) (c : index) :
  setitem ∅ k v = Ok c → ∃ hk, c = {[hk := v]}.
Proof.
  unfold setitem. destruct (py_hash k) as [hk|]; [|done].
  intros [= <-]. by exists hk.
Qed.

Lemma registry_entry_union (lookup : index) (name : pystr) (obj : lora_obj) :
  registry_entry lookup name obj =
    c ← registry_entry ∅ name obj; Ok (c ∪ lookup).
Proof.
  assert (Hid : Ok lookup = c ← Ok (∅ : index); Ok (c ∪ lookup)).
  { cbn [mbind result_bind]. by rewrite (left_id ∅ (∪)). }
  unfold registry_entry.
  destruct (metadata obj) as [md|]; [|done].
  destruct (truthy md); [|done].
  destruct (py_get md (py "ss_output_name") (PStr [])) as [ss|]; [|done].
  cbn [mbind result_bind].
  destruct (truthy ss && negb (py_eq_str ss name)); [|done].
  destruct (py_lower ss) as [low|]; [|done]. cbn [mbind result_bind].
  destruct (negb (bool_decide (low = py "merged"))); [|done].
  apply setitem_union.
Qed.

Lemma registry_entry_single (name : pystr) (obj : lora_obj) (c : index) :
  registry_entry ∅ name obj = Ok c → c = ∅ ∨ ∃ hk, c = {[hk := name]}.
Proof.
  unfold registry_entry.
  destruct (metadata obj) as [md|]; [|intros [= <-]; by left].
  destruct (truthy md); [|intros [= <-]; by left].
  destruct (py_get md (py "ss_output_name") (PStr [])) as [ss|]; [|done].
  cbn [mbind result_bind].
  destruct (truthy ss && negb (py_eq_str ss name)); [|intros [= <-]; by left].
  destruct (py_lower ss) as [low|]; [|done]. cbn [mbind result_bind].
  destruct (negb (bool_decide (low = py "merged"))); [|intros [= <-]; by left].
  intros Hs. right. by eapply setitem_single.
Qed.

Lemma registry_loop_snoc (es : list (pystr * lora_obj)) (e : pystr * lora_obj)
    (lookup : index) :
  registry_loop (es ++ [e]) lookup =
    registry_loop [e] ∅ ∪ registry_loop es lookup.
Proof.
  unfold registry_loop. rewrite foldl_app. cbn [foldl].
  generalize (foldl (λ lookup e, try_pass lookup (registry_entry lookup e.1 e.2))
                lookup es).
  intros l. rewrite (registry_entry_union l).
  destruct (registry_entry ∅ e.1 e.2) as [c|]; cbn [mbind result_bind try_pass].
  - done.
  - by rewrite (left_id ∅ (∪)).
Qed.

Lemma registry_loop_later (es1 es2 : list (pystr * lora_obj))
    (e : pystr * lora_obj) (k : pykey) (v : pystr) :
  registry_loop [e] ∅ !! k = Some v →
  (∀ e', e' ∈ es2 → registry_loop [e'] ∅ !! k = None) →
  registry_loop (es1 ++ e :: es2) ∅ !! k = Some v.
Proof.
  intros He. induction es2 as [|e' es2 IH] using rev_ind; intros Hes2.
  - rewrite registry_loop_snoc. by apply lookup_union_Some_l.
  - rewrite app_comm_cons, app_assoc, registry_loop_snoc.
    rewrite lookup_union_r.
    + apply IH. intros e'' He''. apply Hes2. apply elem_of_app. by left.
    + apply Hes2. apply elem_of_app. right. by left.
Qed.

(** X8. When several registry entries declare the same output name,
    the name resolves to the last of them. *)
Theorem later_registry_entry_wins (h : host)
    (es1 es2 : list (pystr * lora_obj)) (e : pystr * lora_obj)
    (k : pykey) (v : pystr) :
  available_loras h = Some (es1 ++ e :: es2) →
  registry_loop [e] ∅ !! k = Some v →
  (∀ e', e' ∈ es2 → registry_loop [e'] ∅ !! k = None) →
  ∃ idx, build_output_name_lookup h = Ok idx ∧ idx !! k = Some v.
Proof.
  intros Hreg He Hes2. unfold build_output_name_lookup. rewrite Hreg.
  eexists. split; [done|]. by apply registry_loop_later.
Qed.

Lemma scan_file_union (lookup : index) (f : st_file) :
  scan_file lookup f = c ← scan_file ∅ f; Ok (c ∪ lookup).
Proof.
  assert (Hid : Ok lookup = c ← Ok (∅ : index); Ok (c ∪ lookup)).
  { cbn [mbind result_bind]. by rewrite (left_id ∅ (∪)). }
  unfold scan_file. destruct (truthy (load_lora_metadata f)); [|done].
  destruct (py_get _ _ _) as [output_name|]; [|done]. cbn [mbind result_bind].
  destruct (truthy output_name); [|done]. apply setitem_union.
Qed.

Lemma scan_file_single (f : st_file) (c : index) :
  scan_file ∅ f = Ok c → c = ∅ ∨ ∃ hk, c = {[hk := stem f]}.
Proof.
  unfold scan_file. destruct (truthy (load_lora_metadata f)); [|intros [= <-]; by left].
  destruct (py_get _ _ _) as [output_name|]; [|done]. cbn [mbind result_bind].
  destruct (truthy output_name); [|intros [= <-]; by left].
  intros Hs. right. by eapply setitem_single.
Qed.

Lemma scan_files_snoc (files : list st_file) (f : st_file) (lookup : index) :
  scan_files (files ++ [f]) lookup =
    idx ← scan_files files lookup; c ← scan_file ∅ f; Ok (c ∪ idx).
Proof.
  revert lookup. induction files as [|f' files IH]; intros lookup.
  - cbn [app scan_files mbind result_bind]. rewrite (scan_file_union lookup).
    by destruct (scan_file ∅ f).
  - cbn [app scan_files]. destruct (scan_file lookup f'); [|done].
    cbn [mbind result_bind]. apply IH.
Qed.

Lemma scan_files_later (fs1 fs2 : list st_file) (f : st_file) (c idx : index)
    (k : pykey) (v : pystr) :
  scan_files (fs1 ++ f :: fs2) ∅ = Ok idx →
  scan_file ∅ f = Ok c → c !! k = Some v →
  (∀ f' c', f' ∈ fs2 → scan_file ∅ f' = Ok c' → c' !! k = None) →
  idx !! k = Some v.
Proof.
  intros Hidx Hc Hk. revert idx Hidx.
  induction fs2 as [|f' fs2 IH] using rev_ind; intros idx Hidx Hfs2.
  - rewrite scan_files_snoc in Hidx.
    destruct (scan_files fs1 ∅) as [idx1|]; [|done].
    cbn [mbind result_bind] in Hidx. rewrite Hc in Hidx.
    injection Hidx as <-. by apply lookup_union_Some_l.
  - rewrite app_comm_cons, app_assoc, scan_files_snoc in Hidx.
    destruct (scan_files (fs1 ++ f :: fs2) ∅) as [idx1|]; [|done].
    cbn [mbind result_bind] in Hidx.
    destruct (scan_file ∅ f') as [c'|] eqn:Hc'; [|done].
    injection Hidx as <-. rewrite lookup_union_r.
    + apply IH; [done|]. intros f'' c'' Hf''. apply Hfs2.
      apply elem_of_app. by left.
    + apply (Hfs2 f'); [|done]. apply elem_of_app. right. by left.
Qed.

(** X9. The same for the files of the LoRA directory: among files
    that declare the same output name, the last one scanned is the
    one indexed. *)
Theorem later_file_wins (h : host) (dir : path) (fs1 fs2 : list st_file)
    (f : st_file) (c idx : index) (k : pykey) (v : pystr) :
  available_loras h = None →
  get_lora_directory h = Some dir →
  glob_safetensors h dir = Some (fs1 ++ f :: fs2) →
  build_output_name_lookup h = Ok idx →
  scan_file ∅ f = Ok c → c !! k = Some v →
  (∀ f' c', f' ∈ fs2 → scan_file ∅ f' = Ok c' → c' !! k = None) →
  idx !! k = Some v.
Proof.
  intros Hreg Hdir Hglob. unfold build_output_name_lookup.
  rewrite Hreg, Hdir, Hglob. apply scan_files_later.
Qed.

Lemma registry_loop_values (es : list (pystr * lora_obj)) :
  map_Forall (λ _ v, v ∈ es.*1) (registry_loop es ∅).
Proof.
  induction es as [|e es IH] using rev_ind; [apply map_Forall_empty|].
  rewrite registry_loop_snoc. intros k v Hkv. rewrite fmap_app, elem_of_app.
  apply lookup_union_Some_raw in Hkv as [Hkv|[_ Hkv]].
  - right. unfold registry_loop in Hkv. cbn [foldl] in Hkv.
    destruct (registry_entry ∅ e.1 e.2) as [c|] eqn:Hc; cbn [try_pass] in Hkv;
      [|by rewrite lookup_empty in Hkv].
    apply registry_entry_single in Hc as [->|[hk ->]];
      [by rewrite lookup_empty in Hkv|].
    apply lookup_singleton_Some in Hkv as [_ <-]. by left.
  - left. by apply (IH k).
Qed.

Lemma scan_files_values (files : list st_file) (idx : index) :
  scan_files files ∅ = Ok idx → map_Forall (λ _ v, v ∈ stem <$> files) idx.
Proof.
  revert idx. induction files as [|f files IH] using rev_ind; intros idx.
  - intros [= <-]. apply map_Forall_empty.
  - rewrite scan_files_snoc. destruct (scan_files files ∅) as [idx1|]; [|done].
    cbn [mbind result_bind]. destruct (scan_file ∅ f) as [c|] eqn:Hc; [|done].
    intros [= <-] k v Hkv. rewrite fmap_app, elem_of_app.
    apply lookup_union_Some_raw in Hkv as [Hkv|[_ Hkv]].
    + right. apply scan_file_single in Hc as [->|[hk ->]];
        [by rewrite lookup_empty in Hkv|].
      apply lookup_singleton_Some in Hkv as [_ <-]. by left.
    + left. by apply (IH idx1 eq_refl k).
Qed.

(** X10. The index only ever maps to real identifiers: a key of the
    registry when the registry is the source, the stem of a scanned
    file otherwise. *)
Theorem index_values_are_identifiers (h : host) (idx : index)
    (k : pykey) (v : pystr) :
  build_output_name_lookup h = Ok idx →
  idx !! k = Some v →
  match available_loras h with
  | Some entries => v ∈ entries.*1
  | None =>
      ∃ dir files,
        get_lora_directory h = Some dir
        ∧ glob_safetensors h dir = Some files
        ∧ v ∈ stem <$> files
  end.
Proof.
  unfold build_output_name_lookup.
  destruct (available_loras h) as [entries|].
  - intros [= <-] Hkv. by apply (registry_loop_values entries k).
  - destruct (get_lora_directory h) as [dir|];
      [|intros [= <-]; by rewrite lookup_empty].
    destruct (glob_safetensors h dir) as [files|] eqn:Hg;
      [|intros [= <-]; by rewrite lookup_empty].
    intros Hs Hkv. exists dir, files. split; [done|]. split; [done|].
    by apply (scan_files_values files idx Hs k).
Qed.

End Extras.

(** * The parameter getter *)

(** ** Trees of blocks *)

Lemma block_ind' (P : block → Prop) :
  (∀ i, P (Block i None)) →
  (∀ i blocks, Forall P blocks → P (Block i (Some blocks))) →
  ∀ b, P b.
Proof.
  intros Hleaf Hnode. fix IH 1. intros [i [blocks|]]; [|apply Hleaf].
  apply Hnode. induction blocks as [|b blocks IHb]; constructor; [apply IH|done].
Qed.

Lemma get_components_by_ids_node (i : Z) (blocks : list block) (ids : list Z) :
  get_components_by_ids (Block i (Some blocks)) ids =
    (if bool_decide (i ∈ ids) then [Block i (Some blocks)] else []) ++
    (blocks ≫= λ b, get_components_by_ids b
       (if bool_decide (i ∈ ids) then filter (λ j, j ≠ i) ids else ids)).
Proof.
  cbn [get_components_by_ids]. by f_equal.
Qed.

Lemma preorder_node (i : Z) (blocks : list block) :
  preorder (Block i (Some blocks)) =
    Block i (Some blocks) :: (blocks ≫= preorder).
Proof.
  cbn [preorder]. by f_equal.
Qed.

Lemma get_components_by_ids_ids (root : block) (ids : list Z) (b : block) :
  b ∈ get_components_by_ids root ids → block_id b ∈ ids.
Proof.
  revert ids. induction root as [i|i blocks IH] using block_ind'; intros ids.
  - cbn [get_components_by_ids]. case_bool_decide; [|by intros ?%elem_of_nil].
    by intros ->%list_elem_of_singleton.
  - rewrite get_components_by_ids_node, elem_of_app. intros [Hb|Hb].
    + case_bool_decide; [|by apply elem_of_nil in Hb].
      by apply list_elem_of_singleton in Hb as ->.
    + apply list_elem_of_bind in Hb as (c & Hb & Hc).
      rewrite Forall_forall in IH. apply (IH c Hc) in Hb.
      case_bool_decide; [|done]. by apply list_elem_of_filter in Hb as [_ Hb].
Qed.

Lemma get_components_by_ids_sublist (root : block) (ids : list Z) :
  get_components_by_ids root ids `sublist_of` preorder root.
Proof.
  revert ids. induction root as [i|i blocks IH] using block_ind'; intros ids.
  - cbn [get_components_by_ids preorder]. case_bool_decide; [done|].
    apply sublist_nil_l.
  - rewrite get_components_by_ids_node, preorder_node.
    assert (Hch : ∀ ids', (blocks ≫= λ b, get_components_by_ids b ids')
                         `sublist_of` (blocks ≫= preorder)).
    { intros ids'. induction IH as [|b blocks Hb _ IHb]; [done|].
      cbn [mbind list_bind]. by apply sublist_app. }
    case_bool_decide; cbn [app]; [by apply sublist_skip|by apply sublist_cons].
Qed.

(** A search depends on the list of ids only through the ids that
    occur in the tree. *)
Lemma get_components_by_ids_ext (root : block) (ids ids' : list Z) :
  (∀ j, j ∈ block_id <$> preorder root → j ∈ ids ↔ j ∈ ids') →
  get_components_by_ids root ids = get_components_by_ids root ids'.
Proof.
  revert ids ids'. induction root as [i|i blocks IH] using block_ind';
    intros ids ids' Hids.
  - cbn [get_components_by_ids].
    rewrite (bool_decide_ext (i ∈ ids) (i ∈ ids')); [done|].
    apply Hids. cbn. by left.
  - rewrite !get_components_by_ids_node.
    rewrite (bool_decide_ext (i ∈ ids) (i ∈ ids'))
      by (apply Hids; rewrite preorder_node; by left).
    f_equal. rewrite preorder_node, fmap_cons in Hids.
    assert (Hsub : ∀ j, j ∈ block_id <$> (blocks ≫= preorder) →
                        j ∈ ids ↔ j ∈ ids').
    { intros j Hj. apply Hids. by right. }
    clear Hids. induction IH as [|b blocks Hb _ IHb]; [done|].
    cbn [mbind list_bind] in *. rewrite fmap_app in Hsub. f_equal.
    + apply Hb. intros j Hj.
      assert (j ∈ ids ↔ j ∈ ids') as Hiff by (apply Hsub, elem_of_app; by left).
      case_bool_decide; [|done]. rewrite !list_elem_of_filter. tauto.
    + apply IHb. intros j Hj. apply Hsub, elem_of_app. by right.
Qed.

(** X11. A search never invents or reorders: what it returns is a
    selection, in order, from the blocks of the tree (parents first),
    and every block returned carries one of the wanted ids; with no
    id wanted, nothing is returned. *)
Theorem search_selects_wanted_blocks (root : block) (ids : list Z) :
  get_components_by_ids root ids `sublist_of` preorder root
  ∧ (∀ b, b ∈ get_components_by_ids root ids → block_id b ∈ ids)
  ∧ get_components_by_ids root [] = [].
Proof.
  split; [apply get_components_by_ids_sublist|].
  split; [apply get_components_by_ids_ids|].
  destruct (get_components_by_ids root []) as [|b l] eqn:E; [done|].
  assert (Hb : b ∈ get_components_by_ids root []) by (rewrite E; by left).
  apply get_components_by_ids_ids in Hb. by apply elem_of_nil in Hb.
Qed.

Lemma search_children_unique (i : Z) (blocks : list block) (ids : list Z) :
  Forall (λ b, ∀ ids, NoDup (block_id <$> preorder b) →
            get_components_by_ids b ids =
            filter (λ c, block_id c ∈ ids) (preorder b)) blocks →
  NoDup (block_id <$> (blocks ≫= preorder)) →
  i ∉ block_id <$> (blocks ≫= preorder) →
  (blocks ≫= λ b, get_components_by_ids b
      (if bool_decide (i ∈ ids) then filter (λ j, j ≠ i) ids else ids)) =
  filter (λ c, block_id c ∈ ids) (blocks ≫= preorder).
Proof.
  induction 1 as [|b blocks Hb _ IH]; intros Hnd Hi; [done|].
  cbn [mbind list_bind] in *. rewrite fmap_app in Hnd, Hi.
  apply NoDup_app in Hnd as (Hnd1 & _ & Hnd2).
  apply not_elem_of_app in Hi as [Hi1 Hi2].
  rewrite filter_app. f_equal; [|by apply IH].
  rewrite <- (Hb ids Hnd1). apply get_components_by_ids_ext.
  intros j Hj. case_bool_decide; [|done].
  rewrite list_elem_of_filter. split; [tauto|]. intros Hjin. split; [|done].
  by intros ->.
Qed.

(** X12. In a tree whose ids are all different, the search returns
    exactly the blocks whose id is wanted, parents before children
    and children left to right. *)
Theorem search_finds_all_wanted_blocks (root : block) (ids : list Z) :
  NoDup (block_id <$> preorder root) →
  get_components_by_ids root ids =
    filter (λ b, block_id b ∈ ids) (preorder root).
Proof.
  revert ids. induction root as [i|i blocks IH] using block_ind';
    intros ids Hnd.
  - cbn [get_components_by_ids preorder]. rewrite filter_cons. cbn [block_id].
    by case_bool_decide; case_decide.
  - rewrite get_components_by_ids_node, preorder_node, filter_cons.
    rewrite preorder_node, fmap_cons in Hnd. cbn [block_id] in *.
    apply NoDup_cons in Hnd as [Hi Hnd].
    rewrite (search_children_unique i blocks ids) by done.
    by case_bool_decide; case_decide.
Qed.

Lemma compare_is_equality_of_ids_aux (comps : list block) (ids : list Z) :
  compare_components_with_ids comps ids = true ↔ block_id <$> comps = ids.
Proof.
  unfold compare_components_with_ids.
  rewrite andb_true_iff, bool_decide_eq_true.
  revert ids. induction comps as [|c comps IH]; intros [|i ids]; cbn; try done.
  - split; [by intros []|done].
  - split; [by intros []|done].
  - rewrite andb_true_iff, bool_decide_eq_true. split.
    + intros (Hlen & -> & Hall). f_equal. apply IH. split; [congruence|done].
    + intros [= -> Heq]. apply IH in Heq as [Hlen Hall].
      split; [congruence|done].
Qed.

(** X13. The comparison holds exactly when the components carry the
    given ids, one for one and in the same order. *)
Theorem compare_is_equality_of_ids (comps : list block) (ids : list Z) :
  compare_components_with_ids comps ids = true ↔ block_id <$> comps = ids.
Proof. apply compare_is_equality_of_ids_aux. Qed.

(** ** The loop over the tabs *)

Lemma list_find_filter_first {A} (P Q : A → Prop)
    `{∀ x, Decision (P x), ∀ x, Decision (Q x)} (l : list A) (i : nat) (d : A) :
  list_find P (filter Q l) = Some (i, d) →
  ∃ before after,
    l = before ++ d :: after ∧ Q d ∧ P d
    ∧ Forall (λ x, ¬ (Q x ∧ P x)) before.
Proof.
  revert i. induction l as [|x l IH]; intros i; [done|].
  rewrite filter_cons. destruct (decide (Q x)) as [Hq|Hq].
  - cbn [list_find]. destruct (decide (P x)) as [Hp|Hp].
    + intros [= <- <-]. exists [], l. by repeat split.
    + destruct (list_find P (filter Q l)) as [[j y]|] eqn:Hf; [|done].
      intros [= <- <-]. destruct (IH j eq_refl) as (before & after & -> & ? & ? & ?).
      exists (x :: before), after. repeat split; try done.
      constructor; [tauto|done].
  - intros Hf. destruct (IH i Hf) as (before & after & -> & ? & ? & ?).
    exists (x :: before), after. repeat split; try done.
    constructor; [tauto|done].
Qed.

Lemma click_deps4_filter (dependencies deps : list dependency4) (_id : Z) :
  click_deps4 dependencies _id = Some deps →
  deps = filter (λ x, is_click_dep4 _id x = Some true) dependencies.
Proof.
  revert deps. induction dependencies as [|x l IH]; intros deps.
  - by intros [= <-].
  - cbn [click_deps4]. destruct (is_click_dep4 _id x) as [keep|] eqn:Hk; [|done].
    destruct (click_deps4 l _id) as [ds|]; [|done]. intros [= <-].
    rewrite filter_cons, (IH ds eq_refl). rewrite Hk.
    destruct keep; by case_decide.
Qed.

Lemma is_click_dep4_true (_id : Z) (x : dependency4) :
  is_click_dep4 _id x = Some true ↔
  head (targets4 x) = Some (Some _id, py "click").
Proof.
  unfold is_click_dep4. destruct (targets4 x) as [|[target event] l]; [done|].
  cbn [head]. split.
  - intros [= [He Ht]%andb_prop]. apply bool_decide_eq_true in He, Ht.
    by subst.
  - intros [= -> ->]. by rewrite !bool_decide_eq_true_2.
Qed.

Lemma blocks_of_Some (blocks : gmap Z block) (inputs : list Z)
    (params : list block) :
  blocks_of blocks inputs = Some params →
  Forall2 (λ x b, blocks !! x = Some b) inputs params.
Proof.
  revert params. induction inputs as [|x inputs IH]; intros params.
  - intros [= <-]. constructor.
  - cbn [blocks_of]. destruct (blocks !! x) as [b|] eqn:Hb; [|done].
    destruct (blocks_of blocks inputs) as [bs|]; [|done].
    intros [= <-]. constructor; [done|by apply IH].
Qed.

(** X14. The parameters found for a tab are the inputs of the first
    click dependency of the tab's generate button that has four
    outputs: in Gradio 3 they are the inputs of a function of the app
    and carry that dependency's input ids in order; in Gradio 4 they
    are the blocks registered under those ids. *)
Theorem params_come_from_the_click_dependency (demo : demo_t) (_id : Z)
    (params : list block) :
  tab_params demo _id = Params params →
  match demo with
  | Gradio3 dependencies fns =>
      ∃ before dep after p,
        dependencies = before ++ dep :: after
        ∧ (_id ∈ targets3 dep ∧ trigger3 dep = Some (py "click"))
        ∧ length (outputs3 dep) = 4%nat
        ∧ Forall (λ x, ¬ ((_id ∈ targets3 x ∧ trigger3 x = Some (py "click"))
                          ∧ length (outputs3 x) = 4%nat)) before
        ∧ p ∈ fns ∧ fn_inputs p = params
        ∧ block_id <$> params = inputs3 dep
  | Gradio4 dependencies blocks =>
      ∃ before dep after,
        dependencies = before ++ dep :: after
        ∧ head (targets4 dep) = Some (Some _id, py "click")
        ∧ length (outputs4 dep) = 4%nat
        ∧ Forall (λ x, ¬ (head (targets4 x) = Some (Some _id, py "click")
                          ∧ length (outputs4 x) = 4%nat)) before
        ∧ Forall2 (λ x b, blocks !! x = Some b) (inputs4 dep) params
  end.
Proof.
  destruct demo as [dependencies fns|dependencies blocks]; cbn [tab_params].
  - destruct (list_find _ (click_deps3 dependencies _id)) as [[i dep]|] eqn:Hf;
      [|done].
    apply list_find_filter_first in Hf as (before & after & -> & Hq & Hp & Hb).
    destruct (filter _ fns) as [|p ps] eqn:Hm; [done|]. intros [= <-].
    assert (Hin : p ∈ filter
      (λ p, compare_components_with_ids (fn_inputs p) (inputs3 dep)) fns)
      by (rewrite Hm; by left).
    apply list_elem_of_filter in Hin as [Hc Hin].
    exists before, dep, after, p. repeat split; try done; try apply Hq.
    by apply compare_is_equality_of_ids_aux, Is_true_true.
  - destruct (click_deps4 dependencies _id) as [deps|] eqn:Hd; [|done].
    apply click_deps4_filter in Hd as ->.
    destruct (list_find _ _) as [[i dep]|] eqn:Hf; [|done].
    apply list_find_filter_first in Hf as (before & after & -> & Hq & Hp & Hb).
    destruct (blocks_of blocks (inputs4 dep)) as [ps|] eqn:Hbl; [|done].
    intros [= <-]. exists before, dep, after.
    split; [done|]. split; [by apply is_click_dep4_true|]. split; [done|].
    split; [|by apply blocks_of_Some].
    eapply Forall_impl; [done|]. intros x Hx [Hx1 Hx2]. apply Hx.
    split; [by apply is_click_dep4_true|done].
Qed.

Lemma click_deps4_None (dependencies : list dependency4) (_id : Z) :
  click_deps4 dependencies _id = None →
  ∃ x, x ∈ dependencies ∧ targets4 x = [].
Proof.
  induction dependencies as [|x l IH]; [done|]. cbn [click_deps4].
  destruct (is_click_dep4 _id x) as [keep|] eqn:Hk.
  - destruct (click_deps4 l _id); [done|]. intros _.
    destruct (IH eq_refl) as (y & Hy & Ht). exists y. split; [by right|done].
  - intros _. exists x. split; [by left|].
    unfold is_click_dep4 in Hk. by destruct (targets4 x) as [|[]].
Qed.

Lemma tab_params_IndexError (demo : demo_t) (_id : Z) :
  tab_params demo _id = IndexError →
  ∃ dependencies blocks x,
    demo = Gradio4 dependencies blocks ∧ x ∈ dependencies ∧ targets4 x = [].
Proof.
  destruct demo as [dependencies fns|dependencies blocks]; cbn [tab_params].
  - destruct (list_find _ _) as [[i dep]|]; [|done].
    by destruct (filter _ fns).
  - destruct (click_deps4 dependencies _id) as [deps|] eqn:Hd.
    + destruct (list_find _ _) as [[i dep]|]; [|done].
      by destruct (blocks_of blocks (inputs4 dep)).
    + intros _. apply click_deps4_None in Hd as (x & ? & ?).
      by exists dependencies, blocks, x.
Qed.

(** ** [get_params_components] *)

Lemma tabs_loop_frame (demo : demo_t) (tabs : list (Z * bool)) (g g' : getter)
    (e : ending) :
  tabs_loop demo tabs g = (g', e) →
  txt2img_gen_button g' = txt2img_gen_button g
  ∧ img2img_gen_button g' = img2img_gen_button g
  ∧ events_assigned g' = events_assigned g.
Proof.
  revert g. induction tabs as [|[_id is_txt] tabs IH]; intros g.
  - by intros [= <- <-].
  - cbn [tabs_loop]. destruct (tab_params demo _id) as [params| |].
    + intros (-> & -> & ->)%IH. by destruct is_txt.
    + apply IH.
    + by intros [= <- <-].
Qed.

Lemma tabs_loop_two (demo : demo_t) (txt img : Z) (g g' : getter) (e : ending) :
  tabs_loop demo [(txt, true); (img, false)] g = (g', e) →
  (txt2img_params g' = txt2img_params g
   ∨ ∃ ps, tab_params demo txt = Params ps ∧ txt2img_params g' = Holds (Some ps))
  ∧ (img2img_params g' = img2img_params g
     ∨ ∃ ps, tab_params demo img = Params ps ∧ img2img_params g' = Holds (Some ps))
  ∧ (e = Escapes → tab_params demo txt = IndexError ∨ tab_params demo img = IndexError).
Proof.
  cbn [tabs_loop].
  destruct (tab_params demo txt) as [ps| |] eqn:Ht,
           (tab_params demo img) as [ps'| |] eqn:Hi;
    intros [= <- <-]; cbn; (split; [|split]); try done; eauto.
Qed.

(** X15. Wiring the click events happens once and only with
    parameters at hand: the call never touches the two buttons; with
    a button missing it changes nothing; once [events_assigned] is
    set it stays set and the wiring is not run again; and it gets set
    only by a call whose wiring returned, with a non-empty txt2img
    parameter list in place. *)
Theorem events_are_assigned_once (setup_returns : bool) (demo : demo_t)
    (g g' : getter) (e : ending) :
  get_params_components setup_returns demo g = (g', e) →
  (txt2img_gen_button g' = txt2img_gen_button g
   ∧ img2img_gen_button g' = img2img_gen_button g)
  ∧ (txt2img_gen_button g = None ∨ img2img_gen_button g = None →
     g' = g ∧ e = Returns)
  ∧ (events_assigned g = true →
     events_assigned g' = true
     ∧ get_params_components (negb setup_returns) demo g = (g', e))
  ∧ (events_assigned g = false → events_assigned g' = true →
     setup_returns = true ∧ e = Returns
     ∧ ∃ p ps, txt2img_params g' = Holds (Some (p :: ps))).
Proof.
  unfold get_params_components.
  destruct (txt2img_gen_button g) as [txt|] eqn:Htxt;
    [destruct (img2img_gen_button g) as [img|] eqn:Himg|].
  2,3: intros [= <- <-]; split_and!; try done; try congruence.
  destruct (tabs_loop demo _ g) as [g1 e1] eqn:Hl.
  pose proof (tabs_loop_frame _ _ _ _ _ Hl) as (Hb1 & Hb2 & Hev).
  rewrite Htxt in Hb1. rewrite Himg in Hb2.
  destruct e1.
  2:{ intros [= <- <-]. split_and!; try done; try (by intros [|]);
        try (intros; congruence). intros Ht. split; congruence. }
  destruct (events_assigned g1) eqn:Hev1.
  { intros [= <- <-]. split_and!; try done; try (by intros [|]);
      try (intros; congruence). }
  destruct (slot_truthy (txt2img_params g1)) as [[|]|] eqn:Hs.
  - assert (∃ p ps, txt2img_params g1 = Holds (Some (p :: ps))) as (p & ps & Hp).
    { destruct (txt2img_params g1) as [|[[|p ps]|]]; try done. by eexists _, _. }
    destruct setup_returns; intros [= <- <-]; cbn;
      split_and!; try done; try (by intros [|]); try (intros; congruence).
    intros _ _. split_and!; try done. by exists p, ps.
  - intros [= <- <-]. split_and!; try done; try (by intros [|]);
      try (intros; congruence).
  - intros [= <- <-]. split_and!; try done; try (by intros [|]);
      try (intros; congruence).
Qed.

(** X16. A slot is written only with what was found for its own tab:
    after the call each of the two slots is as it was, or holds the
    parameters found for the generate button of that tab. *)
Theorem slots_hold_their_own_tab (setup_returns : bool) (demo : demo_t)
    (g g' : getter) (e : ending) :
  get_params_components setup_returns demo g = (g', e) →
  (txt2img_params g' = txt2img_params g
   ∨ ∃ txt ps,
       txt2img_gen_button g = Some txt
       ∧ tab_params demo (block_id txt) = Params ps
       ∧ txt2img_params g' = Holds (Some ps))
  ∧ (img2img_params g' = img2img_params g
     ∨ ∃ img ps,
         img2img_gen_button g = Some img
         ∧ tab_params demo (block_id img) = Params ps
         ∧ img2img_params g' = Holds (Some ps)).
Proof.
  unfold get_params_components.
  destruct (txt2img_gen_button g) as [txt|] eqn:Htxt;
    [destruct (img2img_gen_button g) as [img|] eqn:Himg|];
    [|intros [= <- <-]; by split; left..].
  destruct (tabs_loop demo _ g) as [g1 e1] eqn:Hl.
  apply tabs_loop_two in Hl as (Ht & Hi & _).
  assert (Hres : (txt2img_params g1 = txt2img_params g
     ∨ ∃ txt0 ps, Some txt = Some txt0
         ∧ tab_params demo (block_id txt0) = Params ps
         ∧ txt2img_params g1 = Holds (Some ps))
    ∧ (img2img_params g1 = img2img_params g
     ∨ ∃ img0 ps, Some img = Some img0
         ∧ tab_params demo (block_id img0) = Params ps
         ∧ img2img_params g1 = Holds (Some ps))).
  { split.
    - destruct Ht as [Ht|(ps & ? & ?)]; [by left|]. right. by exists txt, ps.
    - destruct Hi as [Hi|(ps & ? & ?)]; [by left|]. right. by exists img, ps. }
  destruct e1; [|by intros [= <- <-]].
  destruct (events_assigned g1); [by intros [= <- <-]|].
  destruct (slot_truthy (txt2img_params g1)) as [[|]|];
    [destruct setup_returns|..]; by intros [= <- <-].
Qed.

(** X17. An exception escapes the call in two cases only: a Gradio 4
    dependency has no target at all, or the events are not yet
    assigned and the txt2img slot does not exist after the loop. *)
Theorem what_escapes_the_getter (setup_returns : bool) (demo : demo_t)
    (g g' : getter) :
  get_params_components setup_returns demo g = (g', Escapes) →
  (∃ dependencies blocks x,
     demo = Gradio4 dependencies blocks ∧ x ∈ dependencies ∧ targets4 x = [])
  ∨ (events_assigned g = false ∧ txt2img_params g' = Missing).
Proof.
  unfold get_params_components.
  destruct (txt2img_gen_button g) as [txt|]; [|done].
  destruct (img2img_gen_button g) as [img|]; [|done].
  destruct (tabs_loop demo _ g) as [g1 e1] eqn:Hl.
  pose proof (tabs_loop_frame _ _ _ _ _ Hl) as (_ & _ & Hev).
  apply tabs_loop_two in Hl as (_ & _ & Hesc).
  destruct e1.
  - destruct (events_assigned g1) eqn:Hev1; [done|].
    destruct (slot_truthy (txt2img_params g1)) as [[|]|] eqn:Hs;
      [by destruct setup_returns|done|].
    intros [= <-]. right. split; [congruence|].
    by destruct (txt2img_params g1) as [|[[|]|]].
  - intros _. left. destruct (Hesc eq_refl) as [Hx|Hx].
    + by apply tab_params_IndexError in Hx.
    + by apply tab_params_IndexError in Hx.
Qed.

(** ** What raises *)

Section Raising.
Context `{PyBuiltins}.

(** X18. The resolver raises exactly when the prompt is a non-empty
    string and building the index raises, and then with the same
    exception. *)
Theorem resolver_raises_with_the_build (h : host) (prompt : pyval)
    (selectable : option (list pystr)) (e : exn) :
  extract_loras_from_prompt h prompt selectable = Raise e ↔
  ∃ p, prompt = PStr p ∧ p ≠ [] ∧ build_output_name_lookup h = Raise e.
Proof.
  split.
  - destruct prompt as [| | |p| |]; try done. intros He. exists p.
    split; [done|]. destruct p as [|c p]; [done|]. split; [done|].
    destruct (build_output_name_lookup h) as [idx|e'] eqn:Hb.
    + by rewrite (extract_spec _ idx) in He.
    + rewrite (extract_propagates h e') in He by done. congruence.
  - intros (p & -> & Hp & Hb). by apply extract_propagates.
Qed.

End Raising.

(** * The further properties at work *)

Lemma parsed_fields_are_clean_witness :
  unpadded (py "A") ∧ (colon ∉ py "A") ∧ (gt ∉ py "A")
  ∧ ∀ l, Some (py "x y") = Some l → unpadded l ∧ (gt ∉ l).
Proof.
  apply (@parsed_fields_are_clean RefPy.builtins (py "a <lora: A :1: x y >")
           (py "A") (false, [49], []) (Some (py "x y"))).
  vm_compute. left.
Defined.

Lemma text_before_reference_is_skipped_witness :
  @parse_lora_syntax RefPy.builtins (py "a cat, <lora:A:1> and <lora:B:0.5>") =
    [(py "A", (false, [49], []), None); (py "B", (false, [48], [53]), None)].
Proof.
  apply (@text_before_reference_is_skipped RefPy.builtins (py "a cat, ")
           {| raw_name := py "A"; raw_weight := py "1"; raw_lbw := None |}
           (py " and <lora:B:0.5>")).
  - apply (bool_decide_unpack _). vm_compute. exact I.
  - field_ok.
Defined.

Lemma canonical_round_trip_witness :
  @parse_lora_syntax RefPy.builtins (py "<lora:A:0.8:x y>") =
    [(py "A", (false, [48], [56]), Some (py "x y"))].
Proof.
  apply (@canonical_round_trip RefPy.builtins (py "<lora: A :0.80: x y >")
           (py "A") (false, [48], [56]) (Some (py "x y"))).
  - vm_compute. left.
  - vm_compute. discriminate.
  - discriminate.
  - reflexivity.
  - unfold is_field. repeat split; apply (bool_decide_unpack _); vm_compute; exact I.
Defined.

Lemma matched_are_selectable_witness :
  (∀ m, m ∈ [py "file123"] → m ∈ [py "file123"; py "other"])
  ∧ ∀ p, PStr (py "<lora:TrainedName:1><lora:zzz:1>") = PStr p →
      (length [py "file123"] ≤ length (@parse_lora_syntax RefPy.builtins p))%nat.
Proof.
  apply (@matched_are_selectable RefPy.builtins trained_registry
           (PStr (py "<lora:TrainedName:1><lora:zzz:1>"))
           (Some [py "file123"; py "other"]) [py "file123"]
           (py "TrainedName:1.0,zzz:1.0")).
  reflexivity.
Defined.

Lemma canonical_depends_on_prompt_only_witness :
  py "TrainedName:1.0" = py "TrainedName:1.0".
Proof.
  apply (@canonical_depends_on_prompt_only RefPy.builtins
           trained_registry standalone (py "<lora:TrainedName:1>")
           (Some [py "file123"]) None [py "file123"] []);
    reflexivity.
Defined.

Lemma direct_names_shadow_the_index_witness :
  ∃ canon,
    @extract_loras_from_prompt RefPy.builtins trained_registry
      (PStr (py "<lora:TrainedName:1><lora:file123:1>"))
      (Some [py "TrainedName"; py "file123"]) =
    Ok ((λ r : lora_ref, r.1.1) <$>
          @parse_lora_syntax RefPy.builtins
            (py "<lora:TrainedName:1><lora:file123:1>"), canon).
Proof.
  apply (@direct_names_shadow_the_index RefPy.builtins trained_registry
           {[ KStr (py "TrainedName") := py "file123" ]}).
  - reflexivity.
  - intros r Hr. vm_compute in Hr.
    apply (bool_decide_unpack _).
    inversion Hr as [|? ? ? Hr']; subst; [vm_compute; exact I|].
    inversion Hr' as [|? ? ? Hr'']; subst; [vm_compute; exact I|].
    inversion Hr''.
Defined.

Lemma standalone_matches_by_name_witness :
  @build_output_name_lookup RefPy.builtins standalone = Ok ∅
  ∧ ∃ canon,
      @extract_loras_from_prompt RefPy.builtins standalone
        (PStr (py "<lora:A:1><lora:B:1><lora:A:1>")) (Some [py "A"]) =
      Ok (filter (λ name, name ∈ [py "A"])
            ((λ r : lora_ref, r.1.1) <$>
               @parse_lora_syntax RefPy.builtins
                 (py "<lora:A:1><lora:B:1><lora:A:1>")), canon).
Proof.
  apply (@standalone_matches_by_name RefPy.builtins standalone).
  - reflexivity.
  - intros dir Hdir. vm_compute in Hdir. discriminate.
Defined.

Lemma later_registry_entry_wins_witness :
  ∃ idx, @build_output_name_lookup RefPy.builtins twice_trained = Ok idx
         ∧ idx !! KStr (py "Style") = Some (py "new").
Proof.
  apply (@later_registry_entry_wins RefPy.builtins twice_trained
           [(py "old",
             {| metadata :=
                  Some (PDict [(py "ss_output_name", PStr (py "Style"))]) |})]
           [(py "plain", {| metadata := None |})]
           (py "new",
             {| metadata :=
                  Some (PDict [(py "ss_output_name", PStr (py "Style"))]) |})).
  - reflexivity.
  - reflexivity.
  - intros e' He'. apply list_elem_of_singleton in He'. rewrite He'. reflexivity.
Defined.

Lemma later_file_wins_witness :
  ({[ KStr (py "Style") := py "new" ]} : index) !! KStr (py "Style") =
    Some (py "new").
Proof.
  apply (@later_file_wins RefPy.builtins twice_trained_dir
           [py "/data"; py "models"; py "Lora"]
           [trained_file (py "old") (py "Style")]
           [{| stem := py "plain"; header := None |}]
           (trained_file (py "new") (py "Style"))
           {[ KStr (py "Style") := py "new" ]}
           {[ KStr (py "Style") := py "new" ]}).
  - reflexivity.
  - reflexivity.
  - reflexivity.
  - reflexivity.
  - reflexivity.
  - reflexivity.
  - intros f' c' Hf'. apply list_elem_of_singleton in Hf'. rewrite Hf'.
    intros Hc. injection Hc as <-. reflexivity.
Defined.

Lemma index_values_are_identifiers_witness :
  py "new" ∈ [py "old"; py "new"; py "plain"].
Proof.
  apply (@index_values_are_identifiers RefPy.builtins twice_trained
           {[ KStr (py "Style") := py "new" ]} (KStr (py "Style")) (py "new"));
    reflexivity.
Defined.

Lemma search_finds_all_wanted_blocks_witness :
  get_components_by_ids ui_tree [12%Z; 1%Z; 99%Z] = [txt_button; steps_box].
Proof.
  apply (search_finds_all_wanted_blocks ui_tree [12%Z; 1%Z; 99%Z]).
  apply (bool_decide_unpack _). vm_compute. exact I.
Defined.

Lemma params_come_from_the_click_dependency_witness :
  ∃ before dep after p,
    [{| targets3 := [1%Z]; trigger3 := Some (py "click");
        inputs3 := [11%Z; 12%Z]; outputs3 := [20%Z; 21%Z; 22%Z; 23%Z] |}] =
      before ++ dep :: after
    ∧ (1%Z ∈ targets3 dep ∧ trigger3 dep = Some (py "click"))
    ∧ length (outputs3 dep) = 4%nat
    ∧ Forall (λ x, ¬ ((1%Z ∈ targets3 x ∧ trigger3 x = Some (py "click"))
                      ∧ length (outputs3 x) = 4%nat)) before
    ∧ p ∈ [{| fn_inputs := [prompt_box; steps_box] |}]
    ∧ fn_inputs p = [prompt_box; steps_box]
    ∧ block_id <$> [prompt_box; steps_box] = inputs3 dep.
Proof.
  apply (params_come_from_the_click_dependency demo3 1%Z [prompt_box; steps_box]).
  reflexivity.
Defined.

Lemma events_are_assigned_once_witness :
  ∃ p ps,
    txt2img_params (get_params_components true demo4 fresh_getter).1 =
      Holds (Some (p :: ps)).
Proof.
  apply (events_are_assigned_once true demo4 fresh_getter
           (get_params_components true demo4 fresh_getter).1 Returns eq_refl);
    reflexivity.
Defined.

Lemma slots_hold_their_own_tab_witness :
  (txt2img_params (get_params_components true demo3 fresh_getter).1 = Missing
   ∨ ∃ txt ps,
       Some txt_button = Some txt
       ∧ tab_params demo3 (block_id txt) = Params ps
       ∧ txt2img_params (get_params_components true demo3 fresh_getter).1 =
           Holds (Some ps))
  ∧ (img2img_params (get_params_components true demo3 fresh_getter).1 = Missing
     ∨ ∃ img ps,
         Some img_button = Some img
         ∧ tab_params demo3 (block_id img) = Params ps
         ∧ img2img_params (get_params_components true demo3 fresh_getter).1 =
             Holds (Some ps)).
Proof.
  apply (slots_hold_their_own_tab true demo3 fresh_getter
           (get_params_components true demo3 fresh_getter).1 Returns).
  reflexivity.
Defined.

Lemma what_escapes_the_getter_witness :
  (∃ dependencies blocks x,
     demo4_no_target = Gradio4 dependencies blocks
     ∧ x ∈ dependencies ∧ targets4 x = [])
  ∨ (events_assigned fresh_getter = false
     ∧ txt2img_params fresh_getter = Missing).
Proof.
  apply (what_escapes_the_getter true demo4_no_target fresh_getter fresh_getter).
  reflexivity.
Defined.

Lemma parser_extracts_references_witness :
  @parse_lora_syntax RefPy.builtins (py "<lora: A :1: x y >") =
    [(py "A", (false, [49], []), Some (py "x y"))].
Proof.
  destruct (@parser_extracts_references RefPy.builtins
              (py "<lora: A :1: x y >"))
    as (refs & _ & Huniq & _ & _ & Hparse & _).
  rewrite Hparse.
  rewrite <- (Huniq [{| raw_name := py " A "; raw_weight := py "1";
                        raw_lbw := Some (py " x y ") |}]).
  - reflexivity.
  - apply (tokens_single {| raw_name := py " A "; raw_weight := py "1";
                            raw_lbw := Some (py " x y ") |}).
    field_ok.
Defined.
